From stdpp Require Import gmap strings list fin_maps fin_sets relations pretty sorting.
From Equations Require Import Equations.

Set Warnings "-clear-no-such-hyp".
Open Scope string_scope.
Open Scope list_scope.

(** * Data model *)

(** States and symbols are Python strings.  An input string is modelled as
    the list of the symbols that iterating over it yields (the characters
    of a [str]). *)

(** The reserved key under which [self.transitions[state]] stores the
    epsilon moves of a state: the one-character Python string 'ε', here as
    its UTF-8 bytes. *)
Definition EPSILON : string := "ε".

(** The attributes of a [FiniteAutomaton] object.  [states] and [alphabet]
    are the lists the caller passes, [accept_states] is a set, and
    [transitions] is a dict from state to a dict from symbol to the list of
    destination states ([parse_transitions] builds lists, duplicates
    included). *)
Record FiniteAutomaton := {
  states : list string;
  alphabet : list string;
  transitions : gmap string (gmap string (list string));
  start_state : string;
  accept_states : gset string;
  is_dfa : bool
}.

Section Closure.
Variable t : gmap string (gmap string (list string)).

(** [self.transitions[state]['ε']] when both keys are present, nothing to
    iterate over otherwise. *)
Definition epsilon_moves (state : string) : list string :=
  match t !! state with
  | Some row => match row !! EPSILON with Some dests => dests | None => [] end
  | None => []
  end.

(** One pass of the inner [for next_state in ...] body of
    [get_epsilon_closure], on the pair (closure, stack).  The head of the
    list is the top of the Python stack. *)
Definition visit (cs : gset string * list string) (next_state : string)
  : gset string * list string :=
  if decide (next_state ∈ cs.1) then cs
  else ({[next_state]} ∪ cs.1, next_state :: cs.2).

(** Body of the [while stack:] loop once [state = stack.pop()] is known. *)
Definition closure_body (closure : gset string) (state : string) (stack : list string)
  : gset string * list string :=
  foldl visit (closure, stack) (epsilon_moves state).

(** Every state that occurs as the destination of some epsilon move: the
    only states the loop can ever add to the closure. *)
Definition epsilon_targets : gset string :=
  set_bind (fun state => list_to_set (epsilon_moves state)) (dom t).

(** Stack height plus the number of states still missing from the closure:
    it drops by one at every iteration of the [while] loop. *)
Definition closure_measure (closure : gset string) (stack : list string) : nat :=
  length stack + size (epsilon_targets ∖ closure).

(** The [while stack:] loop of [get_epsilon_closure]. *)
Equations? closure_loop (closure : gset string) (stack : list string) : gset string
  by wf (closure_measure closure stack) lt :=
closure_loop closure [] := closure;
closure_loop closure (state :: stack) :=
  closure_loop (closure_body closure state stack).1 (closure_body closure state stack).2.
Proof.
  clear closure_loop.
  assert (Hsub : forall d, d ∈ epsilon_moves state -> d ∈ epsilon_targets).
  { intros d Hd. unfold epsilon_targets. rewrite elem_of_set_bind.
    exists state. split.
    - apply elem_of_dom. unfold epsilon_moves in Hd.
      destruct (t !! state); [eauto | by apply elem_of_nil in Hd].
    - by apply elem_of_list_to_set. }
  unfold closure_body. revert Hsub.
  generalize (epsilon_moves state) as l. intros l.
  cut (forall cs : gset string * list string,
          (forall d, d ∈ l -> d ∈ epsilon_targets) ->
          closure_measure (foldl visit cs l).1 (foldl visit cs l).2
          = closure_measure cs.1 cs.2).
  { intros H Hl. rewrite (H (closure, stack) Hl). unfold closure_measure. simpl. lia. }
  induction l as [|d l IH]; intros cs Hl; [done|].
  simpl. rewrite IH by (intros; apply Hl; by right).
  unfold visit. destruct (decide (d ∈ cs.1)) as [Hin|Hout]; [done|].
  unfold closure_measure. cbn [fst snd length].
  assert (Hd : d ∈ epsilon_targets) by (apply Hl; by left).
  assert (Heq : epsilon_targets ∖ cs.1 = {[d]} ∪ epsilon_targets ∖ ({[d]} ∪ cs.1)).
  { apply set_eq. intros x. rewrite elem_of_union, !elem_of_difference,
      elem_of_union, elem_of_singleton.
    destruct (decide (x = d)) as [->|]; tauto. }
  rewrite Heq, (size_union {[d]}) by set_solver. rewrite size_singleton. lia.
Qed.

(** [get_epsilon_closure(self, states)]: [closure = set(states)],
    [stack = list(states)], then the loop.  [elements] stands for the order
    in which Python lists the set, which the language leaves open; the
    result is the same for every order ([closure_loop_any_order]). *)
Definition get_epsilon_closure (X : gset string) : gset string :=
  closure_loop X (elements X).
End Closure.


(** * Exceptions *)

(** [TransitionError] and [ValueError] are raised with a text that the code
    builds from lists, so they carry that text.  The text of an [InputError]
    joins a Python [set], whose iteration order changes with the hash seed
    of the run; the exception carries the two values the text is built
    from, the set [invalid_symbols] and the list [self.alphabet], and
    [message_of] below gives the texts it may have. *)
Inductive exception :=
| TransitionError (msg : string)
| InputError (invalid_symbols : gset string) (allowed : list string)
| ValueError (msg : string).

Inductive result (A : Type) :=
| Return (a : A)
| Raise (e : exception).
Arguments Return {A} a.
Arguments Raise {A} e.

Definition bind {A B} (r : result A) (k : A -> result B) : result B :=
  match r with
  | Return a => k a
  | Raise e => Raise e
  end.

Notation "'let*' x ':=' r 'in' k" := (bind r (fun x => k))
  (at level 10, x name, r at level 100, k at level 200).

Definition nl : string := String (Ascii.ascii_of_nat 10) "".

(** [sep.join(l)]. *)
Fixpoint join (sep : string) (l : list string) : string :=
  match l with
  | [] => ""
  | [x] => x
  | x :: rest => x +:+ sep +:+ join sep rest
  end.

(** * class FiniteAutomaton *)

(** ** validate_input_string *)

(** The set [invalid_symbols] once the [for symbol in input_string] loop is
    over. *)
Definition invalid_symbols (self : FiniteAutomaton) (input_string : list string)
  : gset string :=
  foldl (fun acc symbol =>
           if decide (symbol ∈ alphabet self) then acc else {[symbol]} ∪ acc)
        ∅ input_string.

(** [error_msg], for [listing] the symbols of the set [invalid_symbols] in
    the order in which [', '.join(invalid_symbols)] meets them. *)
Definition input_error_msg (listing : list string) (alpha : list string) : string :=
  "Input string contains invalid symbols:" +:+ nl +:+
  "Invalid symbols: " +:+ join ", " listing +:+ nl +:+
  "Allowed symbols (alphabet): " +:+ join ", " alpha.

(** The text [str(e)] of a raised exception.  Iterating a set meets each
    element once, in an order that Python does not fix: each listing of
    [invalid_symbols] without repetition gives a text that a run may
    produce. *)
Inductive message_of : exception -> string -> Prop :=
| message_of_transition_error msg : message_of (TransitionError msg) msg
| message_of_value_error msg : message_of (ValueError msg) msg
| message_of_input_error invalid allowed listing :
    listing ≡ₚ elements invalid ->
    message_of (InputError invalid allowed) (input_error_msg listing allowed).

Definition validate_input_string (self : FiniteAutomaton) (input_string : list string)
  : result unit :=
  let invalid := invalid_symbols self input_string in
  if decide (invalid = ∅) then Return tt
  else Raise (InputError invalid (alphabet self)).

(** ** validate_transitions *)

(** An entry of the list [missing_transitions]; [render] gives the string
    the code appends. *)
Inductive violation :=
| Missing (state symbol : string)
| NotSingle (state symbol : string).

Definition render (v : violation) : string :=
  match v with
  | Missing state symbol => "(" +:+ state +:+ ", " +:+ symbol +:+ ")"
  | NotSingle state symbol =>
      "(" +:+ state +:+ ", " +:+ symbol +:+ ")"
      +:+ " - multiple transitions not allowed in DFA"
  end.

(** What one round of [for state in self.states] appends. *)
Definition state_violations (self : FiniteAutomaton) (state : string) : list violation :=
  if decide (state ∈ accept_states self) then []
  else match transitions self !! state with
       | None => map (Missing state) (alphabet self)
       | Some row =>
           flat_map (fun symbol =>
                       match row !! symbol with
                       | None => [Missing state symbol]
                       | Some dests =>
                           if decide (length dests ≠ 1) then [NotSingle state symbol]
                           else []
                       end)
                    (alphabet self)
       end.

Definition missing_transitions (self : FiniteAutomaton) : list violation :=
  flat_map (state_violations self) (states self).

Definition transition_error_msg (missing : list violation) : string :=
  "DFA Validation Errors:" +:+ nl +:+ join nl (map render missing).

Definition validate_transitions (self : FiniteAutomaton) : result unit :=
  if negb (is_dfa self) then Return tt
  else match missing_transitions self with
       | [] => Return tt
       | missing => Raise (TransitionError (transition_error_msg missing))
       end.

(** ** check_if_dfa *)

(** The first loop of [check_if_dfa] hits [return False] at this state. *)
Definition epsilon_or_multiple (self : FiniteAutomaton) (state : string) : bool :=
  match transitions self !! state with
  | None => false
  | Some row =>
      bool_decide (is_Some (row !! EPSILON))
      || existsb (fun entry => bool_decide (1 < length entry.2)) (map_to_list row)
  end.

(** [state in self.transitions and all(symbol in self.transitions[state] ...)]. *)
Definition has_all_symbols (self : FiniteAutomaton) (state : string) : bool :=
  match transitions self !! state with
  | None => false
  | Some row => forallb (fun symbol => bool_decide (is_Some (row !! symbol))) (alphabet self)
  end.

Definition check_if_dfa (self : FiniteAutomaton) : bool :=
  if existsb (epsilon_or_multiple self) (states self) then false
  else forallb (has_all_symbols self)
               (filter (fun state => state ∉ accept_states self) (states self)).

(** ** __init__ *)

Definition set_is_dfa (self : FiniteAutomaton) (flag : bool) : FiniteAutomaton :=
  {| states := states self; alphabet := alphabet self;
     transitions := transitions self; start_state := start_state self;
     accept_states := accept_states self; is_dfa := flag |}.

(** The five assignments that open [__init__]; [is_dfa] is not assigned yet
    and nothing reads it before it is. *)
Definition store_attributes (states0 alphabet0 : list string)
    (transitions0 : gmap string (gmap string (list string)))
    (start_state0 : string) (accept_states0 : gset string) : FiniteAutomaton :=
  {| states := states0; alphabet := alphabet0;
     transitions := transitions0; start_state := start_state0;
     accept_states := accept_states0; is_dfa := false |}.

Definition __init__ (states0 alphabet0 : list string)
    (transitions0 : gmap string (gmap string (list string)))
    (start_state0 : string) (accept_states0 : gset string)
  : result FiniteAutomaton :=
  let self := store_attributes states0 alphabet0 transitions0
                start_state0 accept_states0 in
  let self := set_is_dfa self (check_if_dfa self) in
  if is_dfa self then let* _ := validate_transitions self in Return self
  else Return self.

(** ** simulate *)

(** [next_states] after the inner [for state in current_states] loop. *)
Definition next_states (self : FiniteAutomaton) (current_states : gset string)
    (symbol : string) : gset string :=
  foldl (fun acc state =>
           match transitions self !! state with
           | Some row =>
               match row !! symbol with
               | Some dests => acc ∪ list_to_set dests
               | None => acc
               end
           | None => acc
           end)
        ∅ (elements current_states).

(** The [for symbol in input_string] loop with its early [return False],
    then the final [return bool(current_states & self.accept_states)]. *)
Fixpoint simulate_loop (self : FiniteAutomaton) (current_states : gset string)
    (input_string : list string) : bool :=
  match input_string with
  | [] => bool_decide (current_states ∩ accept_states self ≠ ∅)
  | symbol :: rest =>
      let next := get_epsilon_closure (transitions self)
                    (next_states self current_states symbol) in
      if decide (next = ∅) then false
      else simulate_loop self next rest
  end.

Definition simulate (self : FiniteAutomaton) (input_string : list string) : result bool :=
  let* _ := validate_input_string self input_string in
  Return (simulate_loop self
            (get_epsilon_closure (transitions self) {[start_state self]})
            input_string).

(** * class FiniteAutomatonGUI *)

Inductive Kind := DFA | NFA | EPSILON_NFA.

(** The label [automaton_type] computed in [simulate_automaton] from the
    finished automaton ("DFA", "NFA", "ε-NFA"). *)
Definition automaton_type (automaton : FiniteAutomaton) : Kind :=
  if is_dfa automaton then DFA
  else if existsb (fun state =>
                     bool_decide (is_Some (default ∅ (transitions automaton !! state)
                                             !! EPSILON)))
                  (states automaton)
       then EPSILON_NFA else NFA.

(** [validate_basic_inputs], on the entries already split at the commas,
    stripped and with the empty ones dropped. *)
Definition validate_basic_inputs (states0 alphabet0 : list string)
    (start_state0 : string) (accept_states0 : gset string)
  : result (list string * list string * string * gset string) :=
  if decide (states0 = []) then Raise (ValueError "States cannot be empty")
  else if decide (alphabet0 = []) then Raise (ValueError "Alphabet cannot be empty")
  else if decide (start_state0 = "") then Raise (ValueError "Start state cannot be empty")
  else if decide (start_state0 ∉ states0) then
    Raise (ValueError ("Start state '" +:+ start_state0 +:+
                       "' must be one of the defined states: " +:+ join ", " states0))
  else if decide (accept_states0 = ∅) then
    Raise (ValueError "Accept states cannot be empty")
  else
    let invalid_accept_states := accept_states0 ∖ list_to_set states0 in
    if decide (invalid_accept_states ≠ ∅) then
      Raise (ValueError ("Invalid accept states: " +:+
                         join ", " (elements invalid_accept_states) +:+ nl +:+
                         "Accept states must be from defined states: " +:+
                         join ", " states0))
    else Return (states0, alphabet0, start_state0, accept_states0).

(** The start of [simulate_automaton]: the basic inputs are validated, then
    the automaton is built from them and from the parsed transitions. *)
Definition build_automaton (states0 alphabet0 : list string)
    (transitions0 : gmap string (gmap string (list string)))
    (start_state0 : string) (accept_states0 : gset string)
  : result FiniteAutomaton :=
  let* checked :=
    validate_basic_inputs states0 alphabet0 start_state0 accept_states0 in
  let '(states1, alphabet1, start_state1, accept_states1) := checked in
  __init__ states1 alphabet1 transitions0 start_state1 accept_states1.

(** * Step-by-step reading of the closure loop *)

(** One iteration of [while stack:] on the pair (closure, stack); the pair
    is left alone once the stack is empty and the loop has exited. *)
Definition while_step (t : gmap string (gmap string (list string)))
    (cs : gset string * list string) : gset string * list string :=
  match cs.2 with
  | [] => cs
  | state :: stack => closure_body t cs.1 state stack
  end.

(** The pair after at most [n] iterations. *)
Fixpoint closure_run (t : gmap string (gmap string (list string))) (n : nat)
    (cs : gset string * list string) : gset string * list string :=
  match n with
  | 0 => cs
  | S n => closure_run t n (while_step t cs)
  end.

(** The states taken off the stack by the first [n] iterations, in order. *)
Fixpoint popped (t : gmap string (gmap string (list string))) (n : nat)
    (cs : gset string * list string) : list string :=
  match n, cs.2 with
  | S n, state :: stack => state :: popped t n (closure_body t cs.1 state stack)
  | _, _ => []
  end.

(** * The words of the specification *)

(** [d] is reached from [s] by one epsilon move. *)
Definition eps_step (t : gmap string (gmap string (list string))) (s d : string) : Prop :=
  exists row dests, t !! s = Some row /\ row !! EPSILON = Some dests /\ d ∈ dests.

(** [C] is the epsilon closure of [X]: the states reached from a state of
    [X] by epsilon moves alone, the states of [X] among them. *)
Definition is_epsilon_closure (t : gmap string (gmap string (list string)))
    (X C : gset string) : Prop :=
  forall d, d ∈ C <-> exists s, s ∈ X /\ rtc (eps_step t) s d.

(** [d] is a destination of [s] on exactly [symbol]. *)
Definition symbol_step (self : FiniteAutomaton) (s symbol d : string) : Prop :=
  exists row dests,
    transitions self !! s = Some row /\ row !! symbol = Some dests /\ d ∈ dests.

(** [U] is the union of the destinations of the states of [current] on
    [symbol]. *)
Definition is_symbol_image (self : FiniteAutomaton) (current : gset string)
    (symbol : string) (U : gset string) : Prop :=
  forall d, d ∈ U <-> exists s, s ∈ current /\ symbol_step self s symbol d.

(** The algorithm of the specification on a current set of states: the
    verdict at the end of the input, the immediate rejection on an empty
    set, and the move to the closure of the image otherwise. *)
Inductive spec_run (self : FiniteAutomaton) : gset string -> list string -> bool -> Prop :=
| spec_run_end current :
    spec_run self current []
      (bool_decide (exists q, q ∈ current /\ q ∈ accept_states self))
| spec_run_reject current symbol rest U N :
    is_symbol_image self current symbol U ->
    is_epsilon_closure (transitions self) U N ->
    N = ∅ ->
    spec_run self current (symbol :: rest) false
| spec_run_next current symbol rest U N verdict :
    is_symbol_image self current symbol U ->
    is_epsilon_closure (transitions self) U N ->
    N ≠ ∅ ->
    spec_run self N rest verdict ->
    spec_run self current (symbol :: rest) verdict.

Definition simulate_spec (self : FiniteAutomaton) (input_string : list string)
    (verdict : bool) : Prop :=
  exists C0, is_epsilon_closure (transitions self) {[start_state self]} C0
             /\ spec_run self C0 input_string verdict.

(** The entry of [self.transitions] for a pair, when there is one. *)
Definition destinations (t : gmap string (gmap string (list string)))
    (state symbol : string) : option (list string) :=
  match t !! state with
  | Some row => row !! symbol
  | None => None
  end.

(** q0,a with an entry that lists no destination. *)
Definition empty_entry_table : gmap string (gmap string (list string)) :=
  {[ "q0" := {[ "a" := [] ]} ]}.

(** No declared state has an entry for epsilon. *)
Definition no_epsilon_at (t : gmap string (gmap string (list string)))
    (states0 : list string) : Prop :=
  Forall (fun state => destinations t state EPSILON = None) states0.

(** Some declared state has an entry for epsilon. *)
Definition has_epsilon_at (t : gmap string (gmap string (list string)))
    (states0 : list string) : Prop :=
  Exists (fun state => is_Some (destinations t state EPSILON)) states0.

(** No entry of a declared state has more than one destination. *)
Definition single_destinations_at (t : gmap string (gmap string (list string)))
    (states0 : list string) : Prop :=
  Forall (fun state =>
            map_Forall (fun _ dests => length dests <= 1) (default ∅ (t !! state)))
         states0.

(** Some entry of a declared state has more than one destination. *)
Definition has_multiple_at (t : gmap string (gmap string (list string)))
    (states0 : list string) : Prop :=
  Exists (fun state =>
            map_Exists (fun _ dests => 1 < length dests) (default ∅ (t !! state)))
         states0.

(** Every declared state that is not an accept state has exactly one
    destination on every symbol of the alphabet. *)
Definition one_destination_per_symbol (t : gmap string (gmap string (list string)))
    (states0 alphabet0 : list string) (accept_states0 : gset string) : Prop :=
  Forall (fun state =>
            state ∉ accept_states0 ->
            Forall (fun symbol => length <$> destinations t state symbol = Some 1)
                   alphabet0)
         states0.

(** * The automata of the scenarios *)

(** q0,0 -> q1; q0,1 -> q0; q1,0 -> q0; q1,1 -> q1. *)
Definition two_state_table : gmap string (gmap string (list string)) :=
  <["q0" := <["0" := ["q1"]]> {[ "1" := ["q0"] ]}]>
    {[ "q1" := <["0" := ["q0"]]> {[ "1" := ["q1"] ]} ]}.

(** q0,0 -> q1 and nothing else. *)
Definition incomplete_table : gmap string (gmap string (list string)) :=
  {[ "q0" := {[ "0" := ["q1"] ]} ]}.

(** q0,ε -> q1; q1,a -> q2. *)
Definition epsilon_table : gmap string (gmap string (list string)) :=
  <["q0" := {[ EPSILON := ["q1"] ]}]> {[ "q1" := {[ "a" := ["q2"] ]} ]}.

(** q0,a -> q1; q1,a -> q0; q1,a -> q1: the accept state q1 has two
    destinations on a. *)
Definition fork_table : gmap string (gmap string (list string)) :=
  <["q0" := {[ "a" := ["q1"] ]}]> {[ "q1" := {[ "a" := ["q0"; "q1"] ]} ]}.

(** q0,a -> q0. *)
Definition loop_table : gmap string (gmap string (list string)) :=
  {[ "q0" := {[ "a" := ["q0"] ]} ]}.

(** * Runs of the automaton *)

(** [path self q w q']: the automaton can go from [q] to [q'] reading
    exactly the symbols of [w], with epsilon moves anywhere in between. *)
Inductive path (self : FiniteAutomaton) : string -> list string -> string -> Prop :=
| path_stop q : path self q [] q
| path_epsilon q q1 w q' :
    eps_step (transitions self) q q1 -> path self q1 w q' -> path self q w q'
| path_symbol q q1 symbol w q' :
    symbol_step self q symbol q1 -> path self q1 w q' ->
    path self q (symbol :: w) q'.

(** The value of [current_states] when the [for] loop of [simulate] ends,
    and [None] when the loop is left by its [return False]. *)
Fixpoint current_states_after (self : FiniteAutomaton) (current_states : gset string)
    (input_string : list string) : option (gset string) :=
  match input_string with
  | [] => Some current_states
  | symbol :: rest =>
      let next := get_epsilon_closure (transitions self)
                    (next_states self current_states symbol) in
      if decide (next = ∅) then None
      else current_states_after self next rest
  end.

(** Every declared state that is not an accept state has a row in the
    table, with an entry for every symbol of the alphabet. *)
Definition complete_at (t : gmap string (gmap string (list string)))
    (states0 alphabet0 : list string) (accept_states0 : gset string) : Prop :=
  Forall (fun state =>
            state ∉ accept_states0 ->
            is_Some (t !! state)
            /\ Forall (fun symbol => is_Some (destinations t state symbol)) alphabet0)
         states0.

(** Every destination listed for a declared state is a declared state. *)
Definition destinations_declared (t : gmap string (gmap string (list string)))
    (states0 : list string) : Prop :=
  Forall (fun state =>
            map_Forall (fun _ dests => Forall (fun d => d ∈ states0) dests)
                       (default ∅ (t !! state)))
         states0.

(** * Reading the text entries *)

(** [s.split(sep)] for a separator that is not empty, scanning from the
    left: [skip] counts the characters of a separator just found that are
    still to be passed over, [piece] is the piece being collected. *)
Fixpoint split_from (sep : string) (skip : nat) (piece : string) (s : string)
  : list string :=
  match s with
  | "" => [piece]
  | String c rest =>
      match skip with
      | S skip' => split_from sep skip' piece rest
      | 0 =>
          if String.prefix sep s
          then piece :: split_from sep (String.length sep - 1) "" rest
          else split_from sep 0 (piece +:+ String c "") rest
      end
  end.

Definition str_split (sep s : string) : list string := split_from sep 0 "" s.

(** [sorted(X)] for a set of strings: the order of the code points is the
    order of the UTF-8 bytes. *)
Definition sorted (X : gset string) : list string :=
  merge_sort (fun a b => Is_true (String.leb a b)) (elements X).

Section Entries.
(** [str.strip] and [str.lower], taken as they come: nothing is assumed
    about them. *)
Variables (strip lower : string -> string).

(** [[s.strip() for s in entry.split(',') if s.strip()]]. *)
Definition entry_list (entry : string) : list string :=
  filter (fun s => s ≠ "") (map strip (str_split "," entry)).

(** [set(s.strip() for s in entry.split(','))]: the empty string is not
    filtered out here. *)
Definition entry_set (entry : string) : gset string :=
  list_to_set (map strip (str_split "," entry)).

(** [validate_basic_inputs] on the text of the four entries. *)
Definition validate_basic_entries (states_entry alphabet_entry start_state_entry
    accept_states_entry : string)
  : result (list string * list string * string * gset string) :=
  validate_basic_inputs (entry_list states_entry) (entry_list alphabet_entry)
    (strip start_state_entry) (list_to_set (entry_list accept_states_entry)).

(** The three statements that end the loop body of [parse_transitions]:
    the row and the list are created when absent, then [next_state] is
    appended. *)
Definition add_transition (transitions0 : gmap string (gmap string (list string)))
    (state symbol next_state : string) : gmap string (gmap string (list string)) :=
  let row := default ∅ (transitions0 !! state) in
  let dests := default [] (row !! symbol) in
  <[state := <[symbol := dests ++ [next_state]]> row]> transitions0.

Definition format_error (line_num : nat) (line hint : string) : string :=
  "Invalid transition format at line " +:+ pretty line_num +:+ ": " +:+ line
  +:+ nl +:+ hint.

Definition name_error (what : string) (line_num : nat) (name : string)
    (expected : string) : string :=
  "Invalid " +:+ what +:+ " at line " +:+ pretty line_num +:+ ": '" +:+ name +:+ "'"
  +:+ nl +:+ expected.

(** The loop body of [parse_transitions] up to the update of the table:
    [None] for a line that is skipped, the transition to record otherwise
    (the symbol already turned into 'ε' when it is 'eps' or 'epsilon'). *)
Definition read_line (state_set alphabet_set : gset string) (line_num : nat)
    (line : string) : result (option (string * string * string)) :=
  let valid_symbols : gset string := alphabet_set ∪ {["eps"; "epsilon"; EPSILON]} in
  if decide (strip line = "") then Return None
  else
    match str_split "->" line with
    | [part0; part1] =>
        let left := strip part0 in
        let right := strip part1 in
        match str_split "," left with
        | [state0; symbol0] =>
            let state := strip state0 in
            let symbol := lower (strip symbol0) in
            let next_state := strip right in
            if decide (state ∉ state_set) then
              Raise (ValueError
                       (name_error "state" line_num state
                          ("State must be one of: " +:+ join ", " (sorted state_set))))
            else if decide (symbol ∉ valid_symbols) then
              Raise (ValueError
                       (name_error "symbol" line_num symbol
                          ("Symbol must be one of: " +:+ join ", " (sorted alphabet_set)
                           +:+ " (or 'eps'/'epsilon' for ε-transitions)")))
            else if decide (next_state ∉ state_set) then
              Raise (ValueError
                       (name_error "next state" line_num next_state
                          ("Next state must be one of: "
                           +:+ join ", " (sorted state_set))))
            else
              let symbol := if decide (symbol ∈ ["eps"; "epsilon"])
                            then EPSILON else symbol in
              Return (Some (state, symbol, next_state))
        | _ =>
            Raise (ValueError
                     (format_error line_num line
                        ("Left side must contain exactly one state and one symbol "
                         +:+ "separated by a comma")))
        end
    | _ =>
        Raise (ValueError
                 (format_error line_num line
                    "Expected format: state,symbol -> next_state"))
    end.

Definition record_line (transitions0 : gmap string (gmap string (list string)))
    (read : option (string * string * string))
  : gmap string (gmap string (list string)) :=
  match read with
  | Some (state, symbol, next_state) =>
      add_transition transitions0 state symbol next_state
  | None => transitions0
  end.

(** The [for line_num, line in enumerate(..., 1)] loop from line number
    [line_num] on, with the table built so far. *)
Fixpoint parse_lines (state_set alphabet_set : gset string) (line_num : nat)
    (lines : list string) (transitions0 : gmap string (gmap string (list string)))
  : result (gmap string (gmap string (list string))) :=
  match lines with
  | [] => Return transitions0
  | line :: rest =>
      let* read := read_line state_set alphabet_set line_num line in
      parse_lines state_set alphabet_set (S line_num) rest
        (record_line transitions0 read)
  end.

(** [parse_transitions(text)], with the text of the states and alphabet
    entries that it reads from the form. *)
Definition parse_transitions (states_entry alphabet_entry text : string)
  : result (gmap string (gmap string (list string))) :=
  parse_lines (entry_set states_entry) (entry_set alphabet_entry) 1
    (str_split nl (strip text)) ∅.

(** The start of [simulate_automaton] on the text of the form: the basic
    inputs are validated, the transitions parsed, the automaton built. *)
Definition build_from_entries (states_entry alphabet_entry start_state_entry
    accept_states_entry text : string) : result FiniteAutomaton :=
  let* checked := validate_basic_entries states_entry alphabet_entry
                    start_state_entry accept_states_entry in
  let '(states1, alphabet1, start_state1, accept_states1) := checked in
  let* transitions1 := parse_transitions states_entry alphabet_entry text in
  __init__ states1 alphabet1 transitions1 start_state1 accept_states1.

(** The transitions that the lines record, in the order of the lines, when
    they are read from line number [line_num] on. *)
Fixpoint recorded (state_set alphabet_set : gset string)
    (line_num : nat) (lines : list string) : list (string * string * string) :=
  match lines with
  | [] => []
  | line :: rest =>
      match read_line state_set alphabet_set line_num line with
      | Return (Some transition) => [transition]
      | _ => []
      end ++ recorded state_set alphabet_set (S line_num) rest
  end.
End Entries.

(** The right-hand sides recorded for the pair (state, symbol). *)
Definition recorded_for (state symbol : string)
    (transitions0 : list (string * string * string)) : list string :=
  map snd (filter (fun x => x.1 = (state, symbol)) transitions0).

(** * visualize *)

(** A call made on the [Digraph] object [dot]. *)
Inductive dot_call :=
| dot_attr_graph (rankdir : string)
| dot_attr_node (shape : string)
| dot_node (name : string) (shape label : option string)
| dot_edge (tail head : string) (label : option string)
| dot_render (filename format : string) (cleanup : bool).

#[global] Instance dot_call_eq_dec : EqDecision dot_call.
Proof. solve_decision. Defined.

(** How many times [x] occurs in [l]. *)
Definition occurrences {A} `{EqDecision A} (x : A) (l : list A) : nat :=
  length (filter (fun y => y = x) l).

(** A dict is walked in the order in which its keys were inserted, which
    the table, a finite map, does not record.  [items] stands for
    [self.transitions.items()], each row given as its own [edges.items()],
    in the order of the walk: every key comes once, and the table is the
    dict of these items. *)
Definition lists_table (items : list (string * list (string * list string)))
    (t : gmap string (gmap string (list string))) : Prop :=
  NoDup (items.*1)
  /\ Forall (fun row => NoDup (row.2.*1)) items
  /\ t = list_to_map ((fun row => (row.1, list_to_map row.2)) <$> items).

(** The two inner loops: the edges drawn for one row of the table. *)
Definition row_edges (state : string) (edges : list (string * list string))
  : list dot_call :=
  flat_map (fun entry =>
              map (fun next_state => dot_edge state next_state (Some entry.1)) entry.2)
           edges.

(** [visualize(self, filename)]: the calls made on [dot], in order, and the
    name returned, when the walk of [self.transitions] yields [items]. *)
Definition visualize (items : list (string * list (string * list string)))
    (self : FiniteAutomaton) (filename : string)
  : list dot_call * string :=
  ([dot_attr_graph "LR"; dot_attr_node "circle"]
   ++ map (fun state =>
             if decide (state ∈ accept_states self)
             then dot_node state (Some "doublecircle") None
             else dot_node state None None)
          (states self)
   ++ [dot_node "start" (Some "none") (Some "");
       dot_edge "start" (start_state self) None]
   ++ flat_map (fun row => row_edges row.1 row.2) items
   ++ [dot_render filename "png" true],
   filename +:+ ".png").

(** The list of a pair after more right-hand sides were appended. *)
Definition extended (old : option (list string)) (new : list string)
  : option (list string) :=
  match new with
  | [] => old
  | _ => Some (default [] old ++ new)
  end.

(** Every row of the table holds an entry. *)
Definition rows_not_empty (t : gmap string (gmap string (list string))) : Prop :=
  forall state row, t !! state = Some row -> row ≠ ∅.

(** A closed decidable proposition, settled by evaluating its decision
    procedure. *)
Ltac by_computation := apply (bool_decide_unpack _); vm_compute; exact I.

(** * The epsilon closure *)

Section ClosureFacts.
Variable t : gmap string (gmap string (list string)).

Lemma eps_step_moves s d : eps_step t s d <-> d ∈ epsilon_moves t s.
Proof.
  unfold eps_step, epsilon_moves. split.
  - intros (row & dests & -> & -> & Hd). exact Hd.
  - destruct (t !! s) as [row|]; [|by intros ?%elem_of_nil].
    destruct (row !! EPSILON) as [dests|] eqn:Hrow; [|by intros ?%elem_of_nil].
    intros Hd. by exists row, dests.
Qed.

(** What the inner [for] loop does to the closure and to the stack: the
    destinations not yet in the closure are pushed, each once. *)
Lemma foldl_visit l : forall closure stack,
  exists new,
    (foldl visit (closure, stack) l).2 = new ++ stack
    /\ (foldl visit (closure, stack) l).1 = closure ∪ list_to_set l
    /\ NoDup new
    /\ forall x, x ∈ new <-> x ∈ l /\ x ∉ closure.
Proof.
  induction l as [|d l IH]; intros closure stack; simpl.
  - exists []. split_and!; [done|set_solver|constructor|set_solver].
  - unfold visit at 2 4. simpl. destruct (decide (d ∈ closure)) as [Hin|Hout].
    + destruct (IH closure stack) as (new & Hs & Hc & Hnd & Hnew).
      exists new. split_and!; [done| |done|].
      * rewrite Hc. set_solver.
      * intros x. rewrite Hnew. set_solver.
    + destruct (IH ({[d]} ∪ closure) (d :: stack)) as (new & Hs & Hc & Hnd & Hnew).
      exists (new ++ [d]). split_and!.
      * rewrite Hs, <- app_assoc. done.
      * rewrite Hc. set_solver.
      * apply NoDup_app. split_and!; [done| |apply NoDup_singleton].
        intros x Hx%Hnew. set_solver.
      * intros x. rewrite elem_of_app, Hnew.
        destruct (decide (x = d)) as [->|]; set_solver.
Qed.

Lemma closure_loop_step closure state stack :
  closure_loop t closure (state :: stack)
  = closure_loop t (closure_body t closure state stack).1
                   (closure_body t closure state stack).2.
Proof. by simp closure_loop. Qed.

Lemma closure_body_spec closure state stack :
  exists new,
    (closure_body t closure state stack).2 = new ++ stack
    /\ (closure_body t closure state stack).1
       = closure ∪ list_to_set (epsilon_moves t state)
    /\ NoDup new
    /\ forall x, x ∈ new <-> eps_step t state x /\ x ∉ closure.
Proof.
  destruct (foldl_visit (epsilon_moves t state) closure stack)
    as (new & Hs & Hc & Hnd & Hnew).
  exists new. split_and!; try done.
  intros x. by rewrite Hnew, eps_step_moves.
Qed.

(** The closure only grows. *)
Lemma closure_loop_extensive closure stack :
  closure ⊆ closure_loop t closure stack.
Proof.
  funelim (closure_loop t closure stack); simp closure_loop; [done|].
  destruct (closure_body_spec closure state stack) as (new & _ & Hc & _).
  etrans; [|exact H]. rewrite Hc. set_solver.
Qed.

(** Loop invariant: the stack holds states of the closure, and every
    state of the closure that is no longer on the stack has all its
    epsilon moves inside the closure.  Under it the loop returns the
    epsilon closure of the set it started from. *)
Lemma closure_loop_reach closure stack :
  (forall s, s ∈ stack -> s ∈ closure) ->
  (forall s d, s ∈ closure -> s ∉ stack -> eps_step t s d -> d ∈ closure) ->
  is_epsilon_closure t closure (closure_loop t closure stack).
Proof.
  funelim (closure_loop t closure stack); simp closure_loop; intros Hstack Hdone.
  - intros d. split.
    + intros Hd. exists d. split; [done|apply rtc_refl].
    + intros (s & Hs & Hrtc). induction Hrtc as [|x y z Hxy _ IH]; [done|].
      apply IH. eapply Hdone; [done|apply not_elem_of_nil|done].
  - destruct (closure_body_spec closure state stack) as (new & Hs & Hc & _ & Hnew).
    assert (Hstate : state ∈ closure) by (apply Hstack; left).
    assert (Hin : forall x, x ∈ (closure_body t closure state stack).1
                            <-> x ∈ closure \/ eps_step t state x).
    { intros x. rewrite Hc, elem_of_union, elem_of_list_to_set.
      by rewrite eps_step_moves. }
    assert (IH : is_epsilon_closure t (closure_body t closure state stack).1
                   (closure_loop t (closure_body t closure state stack).1
                                   (closure_body t closure state stack).2)).
    { apply H.
      - intros s. rewrite Hs, elem_of_app, Hin, Hnew.
        intros [[? _]|?]; [by right|]. left. apply Hstack. by right.
      - intros s d0. rewrite !Hin, Hs, elem_of_app, Hnew. intros Hsin Hnot Hstep.
        destruct (decide (s = state)) as [->|Hne]; [by right|].
        assert (Hsc : s ∈ closure).
        { destruct Hsin as [Hsin|Hsin]; [done|].
          destruct (decide (s ∈ closure)); [done|]. exfalso. apply Hnot. by left. }
        left. apply (Hdone s); [done| |done].
        intros [->|?]%elem_of_cons; [done|]. apply Hnot. by right. }
    intros d. rewrite (IH d).
    split; intros (s & Hsin & Hrtc).
    + apply Hin in Hsin as [Hsin|Hstep]; [by exists s|].
      exists state. split; [done|]. by eapply rtc_l.
    + exists s. split; [|done]. apply Hin. by left.
Qed.

(** The run of the loop, iteration by iteration: it stops after as many
    iterations as there are states on the stack plus states still to be
    added, and no state is taken off the stack twice. *)
Lemma closure_loop_run closure stack :
  NoDup stack ->
  (forall s, s ∈ stack -> s ∈ closure) ->
  let R := closure_loop t closure stack in
  let n := length stack + size (R ∖ closure) in
  closure_run t n (closure, stack) = (R, [])
  /\ (forall k, k < n -> (closure_run t k (closure, stack)).2 ≠ [])
  /\ NoDup (popped t n (closure, stack))
  /\ (forall x, x ∈ popped t n (closure, stack)
                <-> x ∈ stack \/ (x ∈ R /\ x ∉ closure)).
Proof.
  funelim (closure_loop t closure stack); simp closure_loop; intros Hnd Hstack.
  - cbn zeta. replace (closure ∖ closure) with (∅ : gset string) by set_solver.
    rewrite size_empty. simpl. split_and!; [done|lia|constructor|].
    intros x. set_solver.
  - pose proof (closure_loop_extensive (closure_body t closure state stack).1
                  (closure_body t closure state stack).2) as Hext.
    destruct (closure_body_spec closure state stack) as (new & Hs & Hc & Hnew_nd & Hnew).
    revert H Hext Hs Hc.
    destruct (closure_body t closure state stack) as [c' s'] eqn:Hbody.
    cbn [fst snd]. intros IH Hext -> Hc.
    apply NoDup_cons in Hnd as [Hfresh Hnd].
    assert (Hstate : state ∈ closure) by (apply Hstack; left).
    assert (Hc' : forall x, x ∈ c' <-> x ∈ closure \/ x ∈ new).
    { intros x. rewrite Hc, elem_of_union, elem_of_list_to_set, Hnew,
        <- eps_step_moves.
      destruct (decide (x ∈ closure)); tauto. }
    destruct IH as (Hrun & Hbefore & Hpop_nd & Hpop).
    { apply NoDup_app. split_and!; [done| |done].
      intros x [_ Hx]%Hnew Hin. apply Hx, Hstack. by right. }
    { intros s. rewrite elem_of_app, Hc'. intros [?|?]; [by right|].
      left. apply Hstack. by right. }
    set (R := closure_loop t c' (new ++ stack)) in *.
    assert (Hsize : size (R ∖ closure) = length new + size (R ∖ c')).
    { replace (R ∖ closure) with (list_to_set new ∪ R ∖ c').
      - rewrite size_union, size_list_to_set by (done || set_solver). done.
      - apply set_eq. intros x.
        rewrite elem_of_union, !elem_of_difference, elem_of_list_to_set, Hc'.
        split.
        + intros [Hx|[Hx Hnot]]; [|tauto].
          split; [apply Hext, Hc'; by right|]. by apply Hnew in Hx as [_ ?].
        + intros [Hx Hnot]. destruct (decide (x ∈ new)); tauto. }
    cbn zeta. rewrite Hsize.
    replace (length (state :: stack) + (length new + size (R ∖ c')))
      with (S (length (new ++ stack) + size (R ∖ c')))
      by (rewrite length_app; simpl; lia).
    cbn [closure_run popped fst snd]. unfold while_step. cbn [fst snd].
    rewrite Hbody. cbn zeta in Hrun, Hbefore, Hpop_nd, Hpop.
    split_and!.
    + exact Hrun.
    + intros [|k] Hk; [done|]. cbn [closure_run]. unfold while_step.
      cbn [fst snd]. rewrite Hbody. apply Hbefore. lia.
    + apply NoDup_cons. split; [|done].
      rewrite Hpop, elem_of_app, Hc'. intros [[Hx|Hx]|[_ Hx]].
      * apply Hnew in Hx as [_ ?]. done.
      * done.
      * apply Hx. by left.
    + intros x. rewrite !elem_of_cons, Hpop, elem_of_app, Hc'. split.
      * intros [->|[[Hx|Hx]|[Hx Hnot]]]; [by left;left| |by left;right|].
        -- right. split; [apply Hext, Hc'; by right|]. by apply Hnew in Hx as [_ ?].
        -- right. split; [done|]. tauto.
      * intros [[->|Hx]|[Hx Hnot]]; [by left|by right;left;right|].
        destruct (decide (x ∈ new)); [by right;left;left|].
        right. right. split; [done|]. tauto.
Qed.

Lemma get_epsilon_closure_reach X :
  is_epsilon_closure t X (get_epsilon_closure t X).
Proof.
  apply closure_loop_reach.
  - intros s. by rewrite elem_of_elements.
  - intros s d Hs Hnot. exfalso. apply Hnot. by apply elem_of_elements.
Qed.

(** Two sets that are both the epsilon closure of [X] are equal. *)
Lemma is_epsilon_closure_unique X C1 C2 :
  is_epsilon_closure t X C1 -> is_epsilon_closure t X C2 -> C1 = C2.
Proof. intros H1 H2. apply set_eq. intros d. by rewrite (H1 d), (H2 d). Qed.

(** The order in which [list(states)] lists the set does not matter. *)
Lemma closure_loop_any_order (X : gset string) (stack : list string) :
  (forall s, s ∈ stack <-> s ∈ X) ->
  closure_loop t X stack = get_epsilon_closure t X.
Proof.
  intros Hsame.
  apply (is_epsilon_closure_unique X); [|apply get_epsilon_closure_reach].
  apply closure_loop_reach.
  - intros s. by rewrite Hsame.
  - intros s d Hs Hnot. exfalso. apply Hnot. by apply Hsame.
Qed.

Lemma eps_step_target s d : eps_step t s d -> d ∈ epsilon_targets t.
Proof.
  intros Hstep. unfold epsilon_targets. rewrite elem_of_set_bind.
  exists s. split.
  - destruct Hstep as (row & _ & Hrow & _). apply elem_of_dom. by exists row.
  - apply elem_of_list_to_set. by apply eps_step_moves.
Qed.
End ClosureFacts.

(** C8: for every state [s], [get_epsilon_closure({s})] contains [s], and
    [get_epsilon_closure] is idempotent: applying it to its own result gives
    that result again. *)
Theorem get_epsilon_closure_superset_idempotent
    (t : gmap string (gmap string (list string))) :
  (forall s : string, ({[s]} : gset string) ⊆ get_epsilon_closure t {[s]})
  /\ (forall X : gset string,
        get_epsilon_closure t (get_epsilon_closure t X) = get_epsilon_closure t X).
Proof.
  split.
  - intros s. apply closure_loop_extensive.
  - intros X. apply set_eq. intros d.
    rewrite (get_epsilon_closure_reach t (get_epsilon_closure t X) d).
    rewrite (get_epsilon_closure_reach t X d). split.
    + intros (s & Hs & Hrtc).
      apply (get_epsilon_closure_reach t X s) in Hs as (s0 & Hs0 & Hrtc0).
      exists s0. split; [done|]. by etrans.
    + intros (s & Hs & Hrtc). exists s. split; [|done].
      by apply closure_loop_extensive.
Qed.

(** C10: [get_epsilon_closure] terminates on every transition table and
    every set [X] of states.  Run iteration by iteration from
    [closure = set(X)], [stack = list(X)], the [while] loop finds its stack
    empty after exactly as many iterations as the returned closure has
    states, and not earlier; the states taken off the stack are pairwise
    distinct and are the states of the result, so each state was pushed, and
    hence added to the closure, at most once; the result is the set of
    states reachable from [X] by epsilon moves, it is closed under epsilon
    moves (nothing is left to add), and its size is at most that of [X] plus
    the number of epsilon destinations of the table. *)
Theorem get_epsilon_closure_terminates
    (t : gmap string (gmap string (list string))) (X : gset string) :
  let C := get_epsilon_closure t X in
  closure_run t (size C) (X, elements X) = (C, [])
  /\ (forall k, k < size C -> (closure_run t k (X, elements X)).2 ≠ [])
  /\ NoDup (popped t (size C) (X, elements X))
  /\ (forall s, s ∈ popped t (size C) (X, elements X) <-> s ∈ C)
  /\ is_epsilon_closure t X C
  /\ (forall s d, s ∈ C -> eps_step t s d -> d ∈ C)
  /\ size C <= size X + size (epsilon_targets t).
Proof.
  intros C.
  assert (Hext : X ⊆ C) by apply closure_loop_extensive.
  assert (Hreach : is_epsilon_closure t X C) by apply get_epsilon_closure_reach.
  destruct (closure_loop_run t X (elements X)) as (Hrun & Hbefore & Hnd & Hpop).
  { apply NoDup_elements. }
  { intros s. by rewrite elem_of_elements. }
  fold (get_epsilon_closure t X) in Hrun, Hbefore, Hnd, Hpop. fold C in Hrun, Hbefore, Hnd, Hpop.
  assert (Hn : length (elements X) + size (C ∖ X) = size C).
  { change (length (elements X)) with (size X).
    rewrite <- size_union by set_solver. f_equal. apply set_eq. intros x.
    rewrite elem_of_union, elem_of_difference.
    destruct (decide (x ∈ X)); set_solver. }
  cbn zeta in Hrun, Hbefore, Hnd, Hpop. rewrite Hn in Hrun, Hbefore, Hnd, Hpop.
  split_and!; try done.
  - intros s. rewrite Hpop, elem_of_elements. split.
    + intros [?|[? _]]; [by apply Hext|done].
    + intros ?. destruct (decide (s ∈ X)); tauto.
  - intros s d Hs Hstep. apply (Hreach d). apply (Hreach s) in Hs as (s0 & Hs0 & Hrtc).
    exists s0. split; [done|]. by eapply rtc_r.
  - assert (Hsub : C ⊆ X ∪ epsilon_targets t).
    { intros d Hd. apply (Hreach d) in Hd as (s & Hs & Hrtc).
      apply rtc_inv_r in Hrtc as [->|(s1 & _ & Hstep)]; [set_solver|].
      apply elem_of_union. right. by eapply eps_step_target. }
    apply subseteq_size in Hsub. rewrite size_union_alt in Hsub.
    assert (size (epsilon_targets t ∖ X) <= size (epsilon_targets t))
      by (apply subseteq_size; set_solver).
    lia.
Qed.

(** * simulate *)

Section SimulateFacts.
Variable self : FiniteAutomaton.

Lemma symbol_step_destinations s symbol d :
  symbol_step self s symbol d
  <-> exists dests, destinations (transitions self) s symbol = Some dests /\ d ∈ dests.
Proof.
  unfold symbol_step, destinations. split.
  - intros (row & dests & -> & Hrow & Hd). by exists dests.
  - destruct (transitions self !! s) as [row|]; [|by intros (? & ? & _)].
    intros (dests & Hrow & Hd). by exists row, dests.
Qed.

(** The inner loop gathers the destinations on [symbol] of the states it
    walks through. *)
Lemma next_states_image current symbol :
  is_symbol_image self current symbol (next_states self current symbol).
Proof.
  intros d. unfold next_states.
  assert (Hfold : forall (l : list string) (acc : gset string),
    d ∈ foldl (fun acc state =>
                 match transitions self !! state with
                 | Some row =>
                     match row !! symbol with
                     | Some dests => acc ∪ list_to_set dests
                     | None => acc
                     end
                 | None => acc
                 end) acc l
    <-> d ∈ acc \/ exists s, s ∈ l /\ symbol_step self s symbol d).
  { induction l as [|s l IH]; intros acc; simpl.
    - split; [by left|]. intros [?|(s & ?%elem_of_nil & _)]; done.
    - rewrite IH. unfold symbol_step.
      destruct (transitions self !! s) as [row|] eqn:Hs;
        [destruct (row !! symbol) as [dests|] eqn:Hrow|].
      + rewrite elem_of_union, elem_of_list_to_set. split.
        * intros [[?|?]|(s1 & ? & ?)]; [by left| |right; exists s1; split; [by right|done]].
          right. exists s. split; [by left|]. by exists row, dests.
        * intros [?|(s1 & [->|?]%elem_of_cons & Hstep)]; [by left;left| |].
          -- destruct Hstep as (row1 & dests1 & Hs1 & Hrow1 & ?).
             rewrite Hs in Hs1. injection Hs1 as <-.
             rewrite Hrow in Hrow1. injection Hrow1 as <-. by left; right.
          -- right. by exists s1.
      + split.
        * intros [?|(s1 & ? & ?)]; [by left|right; exists s1; split; [by right|done]].
        * intros [?|(s1 & [->|?]%elem_of_cons & Hstep)]; [by left| |].
          -- destruct Hstep as (row1 & dests1 & Hs1 & Hrow1 & ?).
             rewrite Hs in Hs1. injection Hs1 as <-. by rewrite Hrow in Hrow1.
          -- right. by exists s1.
      + split.
        * intros [?|(s1 & ? & ?)]; [by left|right; exists s1; split; [by right|done]].
        * intros [?|(s1 & [->|?]%elem_of_cons & Hstep)]; [by left| |].
          -- destruct Hstep as (row1 & dests1 & Hs1 & _). by rewrite Hs in Hs1.
          -- right. by exists s1. }
  rewrite Hfold. setoid_rewrite elem_of_elements. set_solver.
Qed.

Lemma is_symbol_image_unique current symbol U1 U2 :
  is_symbol_image self current symbol U1 ->
  is_symbol_image self current symbol U2 -> U1 = U2.
Proof. intros H1 H2. apply set_eq. intros d. by rewrite (H1 d), (H2 d). Qed.

Lemma accepting_decide (current : gset string) :
  bool_decide (current ∩ accept_states self ≠ ∅)
  = bool_decide (exists q, q ∈ current /\ q ∈ accept_states self).
Proof.
  apply bool_decide_ext. split.
  - intros (q & Hq)%set_choose_L. exists q. set_solver.
  - intros (q & ? & ?). set_solver.
Qed.

(** The loop of [simulate] is a run of the specified algorithm. *)
Lemma simulate_loop_spec_run input_string : forall current,
  spec_run self current input_string (simulate_loop self current input_string).
Proof.
  induction input_string as [|symbol rest IH]; intros current; simpl.
  - rewrite accepting_decide. constructor.
  - destruct (decide (get_epsilon_closure (transitions self)
                        (next_states self current symbol) = ∅)) as [Hempty|Hne].
    + eapply spec_run_reject; [apply next_states_image| |exact Hempty].
      apply get_epsilon_closure_reach.
    + eapply spec_run_next; [apply next_states_image| |exact Hne|apply IH].
      apply get_epsilon_closure_reach.
Qed.

(** A run of the specified algorithm has one verdict only: the one of the
    loop. *)
Lemma spec_run_simulate_loop current input_string verdict :
  spec_run self current input_string verdict ->
  verdict = simulate_loop self current input_string.
Proof.
  induction 1 as [current|current symbol rest U N HU HN Hempty
                  |current symbol rest U N verdict HU HN Hne _ IH]; simpl.
  - by rewrite accepting_decide.
  - rewrite (is_symbol_image_unique _ _ _ _ (next_states_image current symbol) HU).
    rewrite (is_epsilon_closure_unique _ _ _ _
               (get_epsilon_closure_reach (transitions self) U) HN).
    by rewrite decide_True.
  - rewrite (is_symbol_image_unique _ _ _ _ (next_states_image current symbol) HU).
    rewrite (is_epsilon_closure_unique _ _ _ _
               (get_epsilon_closure_reach (transitions self) U) HN).
    by rewrite decide_False.
Qed.

(** The set collected by [validate_input_string]: the symbols of the
    input that are not in the alphabet. *)
Lemma elem_of_invalid_symbols input_string x :
  x ∈ invalid_symbols self input_string
  <-> x ∈ input_string /\ x ∉ alphabet self.
Proof.
  unfold invalid_symbols.
  assert (Hfold : forall (l : list string) (acc : gset string),
    x ∈ foldl (fun acc symbol =>
                 if decide (symbol ∈ alphabet self) then acc else {[symbol]} ∪ acc)
              acc l
    <-> x ∈ acc \/ (x ∈ l /\ x ∉ alphabet self)).
  { induction l as [|symbol l IH]; intros acc; simpl.
    - split; [by left|]. intros [?|[?%elem_of_nil _]]; done.
    - rewrite IH. destruct (decide (symbol ∈ alphabet self)).
      + split; intros [?|[Hx ?]]; try (by left).
        * right. split; [by right|done].
        * apply elem_of_cons in Hx as [->|?]; [done|]. by right.
      + rewrite elem_of_union, elem_of_singleton. split.
        * intros [[->|?]|[? ?]]; [right; split; [by left|done]|by left|].
          right. split; [by right|done].
        * intros [?|[[->|?]%elem_of_cons ?]]; [by left;right|by left;left|by right]. }
  rewrite Hfold. set_solver.
Qed.

Lemma validate_input_string_ok input_string :
  Forall (fun symbol => symbol ∈ alphabet self) input_string ->
  validate_input_string self input_string = Return tt.
Proof.
  intros Hall. unfold validate_input_string.
  rewrite decide_True; [done|]. apply set_eq. intros x.
  rewrite elem_of_invalid_symbols, elem_of_empty. split; [|done].
  intros [Hx Hnot]. apply Hnot. by eapply (proj1 (Forall_forall _ _) Hall).
Qed.
End SimulateFacts.

(** The loop of [simulate] never reads [is_dfa]. *)
Lemma simulate_loop_set_is_dfa self flag input_string : forall current,
  simulate_loop (set_is_dfa self flag) current input_string
  = simulate_loop self current input_string.
Proof.
  induction input_string as [|symbol rest IH]; intros current; simpl; [done|].
  change (next_states (set_is_dfa self flag) current symbol)
    with (next_states self current symbol).
  destruct (decide _); [done|apply IH].
Qed.

(** C1: for every automaton and every input whose symbols all belong to the
    alphabet, [simulate] returns a verdict, and that verdict is the one of
    the specified algorithm: the current set starts as the epsilon closure
    of the start state; for each symbol the destinations of the current
    states on that symbol are united and the epsilon closure of that union
    is taken; an empty set rejects at once whatever is left of the input; at
    the end of the input the verdict says whether a current state is an
    accept state.  The specified algorithm allows no other verdict, and the
    verdict is the same whatever the value of [is_dfa]. *)
Theorem simulate_follows_spec (self : FiniteAutomaton) (input_string : list string) :
  Forall (fun symbol => symbol ∈ alphabet self) input_string ->
  exists verdict,
    simulate self input_string = Return verdict
    /\ simulate_spec self input_string verdict
    /\ (forall verdict', simulate_spec self input_string verdict' -> verdict' = verdict)
    /\ (forall flag, simulate (set_is_dfa self flag) input_string = Return verdict).
Proof.
  intros Hall.
  exists (simulate_loop self
            (get_epsilon_closure (transitions self) {[start_state self]})
            input_string).
  assert (Hsim : forall a, alphabet a = alphabet self ->
            validate_input_string a input_string = Return tt).
  { intros a Ha. apply validate_input_string_ok. by rewrite Ha. }
  split_and!.
  - unfold simulate. by rewrite Hsim.
  - eexists. split; [apply get_epsilon_closure_reach|apply simulate_loop_spec_run].
  - intros verdict' (C0 & HC0 & Hrun).
    rewrite (is_epsilon_closure_unique _ _ _ _
               (get_epsilon_closure_reach (transitions self) {[start_state self]}) HC0).
    by apply spec_run_simulate_loop.
  - intros flag. unfold simulate. rewrite Hsim by done. simpl.
    by rewrite simulate_loop_set_is_dfa.
Qed.

(** The texts of an [InputError]: the three lines of [error_msg], with the
    symbols of the set in some order and each once. *)
Lemma message_of_input_error_iff (invalid : gset string) (allowed : list string)
    (msg : string) :
  message_of (InputError invalid allowed) msg
  <-> exists listing,
        NoDup listing
        /\ (forall x, x ∈ listing <-> x ∈ invalid)
        /\ msg = input_error_msg listing allowed.
Proof.
  split.
  - inversion 1 as [| |invalid' allowed' listing Hperm]; subst.
    exists listing. split_and!; [|intros x|done].
    + rewrite Hperm. apply NoDup_elements.
    + by rewrite Hperm, elem_of_elements.
  - intros (listing & Hnodup & Hmem & ->). constructor.
    apply NoDup_Permutation; [done|apply NoDup_elements|].
    intros x. by rewrite Hmem, elem_of_elements.
Qed.

Lemma message_of_exists (e : exception) : exists msg, message_of e msg.
Proof.
  destruct e as [msg|invalid allowed|msg]; eexists; by constructor.
Qed.

(** C6: [simulate] raises [InputError] exactly when the input has a symbol
    outside the alphabet, and raises nothing else; the error is the one of
    [validate_input_string], whose failure is passed on before any step of
    the simulation; it is raised for the whole set of offending symbols and
    for the alphabet, and its text is the heading, then a line that names
    each offending symbol once (in the order in which the set is iterated),
    then a line that names the alphabet in its own order; and a call on any
    input over the alphabet, before or after a failed one, returns a verdict
    for the same automaton. *)
Theorem simulate_input_error (self : FiniteAutomaton) (input_string : list string) :
  ((exists invalid allowed,
      simulate self input_string = Raise (InputError invalid allowed))
   <-> exists symbol, symbol ∈ input_string /\ symbol ∉ alphabet self)
  /\ (forall e, simulate self input_string = Raise e <->
                validate_input_string self input_string = Raise e)
  /\ (forall e, simulate self input_string = Raise e ->
        (exists invalid : gset string,
           (forall x, x ∈ invalid <-> x ∈ input_string /\ x ∉ alphabet self)
           /\ e = InputError invalid (alphabet self))
        /\ (exists msg, message_of e msg)
        /\ (forall msg,
              message_of e msg
              <-> exists listing,
                    NoDup listing
                    /\ (forall x, x ∈ listing
                                  <-> x ∈ input_string /\ x ∉ alphabet self)
                    /\ msg = "Input string contains invalid symbols:" +:+ nl +:+
                             "Invalid symbols: " +:+ join ", " listing +:+ nl +:+
                             "Allowed symbols (alphabet): "
                             +:+ join ", " (alphabet self)))
  /\ (forall other,
        (exists verdict, simulate self other = Return verdict)
        <-> Forall (fun symbol => symbol ∈ alphabet self) other).
Proof.
  assert (Hraise : forall input e,
            simulate self input = Raise e <-> validate_input_string self input = Raise e).
  { intros input e. unfold simulate.
    destruct (validate_input_string self input) as [[]|e0]; simpl;
      split; intros Heq; (discriminate Heq || by injection Heq as ->). }
  assert (Hinvalid : forall input e,
            validate_input_string self input = Raise e ->
            e = InputError (invalid_symbols self input) (alphabet self)
            /\ exists symbol, symbol ∈ input /\ symbol ∉ alphabet self).
  { intros input e. unfold validate_input_string.
    destruct (decide (invalid_symbols self input = ∅)) as [|Hne]; [done|].
    intros [= <-]. split; [done|].
    apply set_choose_L in Hne as (symbol & Hsym).
    exists symbol. by apply elem_of_invalid_symbols. }
  split_and!.
  - split.
    + intros (invalid & allowed & Hsim). apply Hraise, Hinvalid in Hsim. tauto.
    + intros (symbol & Hin & Hnot).
      exists (invalid_symbols self input_string), (alphabet self).
      apply Hraise. unfold validate_input_string.
      rewrite decide_False; [done|]. intros Hempty.
      assert (Hsym : symbol ∈ invalid_symbols self input_string)
        by by apply elem_of_invalid_symbols.
      rewrite Hempty in Hsym. by apply elem_of_empty in Hsym.
  - apply Hraise.
  - intros e Hsim. apply Hraise, Hinvalid in Hsim as [-> _]. split_and!.
    + exists (invalid_symbols self input_string). split; [|done].
      intros x. apply elem_of_invalid_symbols.
    + apply message_of_exists.
    + intros msg. rewrite message_of_input_error_iff.
      split; intros (listing & Hnodup & Hmem & ->); exists listing;
        (split_and!; [done| |reflexivity]);
        intros x; by rewrite Hmem, elem_of_invalid_symbols.
  - intros other. split.
    + intros (verdict & Hsim). apply Forall_forall. intros symbol Hin.
      destruct (decide (symbol ∈ alphabet self)) as [|Hnot]; [done|].
      exfalso. unfold simulate, validate_input_string in Hsim.
      rewrite decide_False in Hsim; [discriminate Hsim|].
      intros Hempty.
      assert (Hsym : symbol ∈ invalid_symbols self other)
        by by apply elem_of_invalid_symbols.
      rewrite Hempty in Hsym. by apply elem_of_empty in Hsym.
    + intros Hall. unfold simulate.
      rewrite validate_input_string_ok by done. by eexists.
Qed.

(** The two-state automaton on the input x, 2, x: the set of offending
    symbols holds x and 2, each once, and the text names them in either
    order, as the run decides. *)
Example simulate_input_error_texts :
  let self := store_attributes ["q0"; "q1"] ["0"; "1"] two_state_table "q0" {["q1"]} in
  exists e,
    simulate self ["x"; "2"; "x"] = Raise e
    /\ e = InputError {["x"; "2"]} ["0"; "1"]
    /\ forall msg,
         message_of e msg
         <-> msg = "Input string contains invalid symbols:" +:+ nl +:+
                   "Invalid symbols: x, 2" +:+ nl +:+
                   "Allowed symbols (alphabet): 0, 1"
             \/ msg = "Input string contains invalid symbols:" +:+ nl +:+
                      "Invalid symbols: 2, x" +:+ nl +:+
                      "Allowed symbols (alphabet): 0, 1".
Proof.
  cbv zeta. exists (InputError {["x"; "2"]} ["0"; "1"]).
  split_and!; [vm_compute; reflexivity|reflexivity|].
  intros msg. rewrite message_of_input_error_iff. split.
  - intros (listing & Hnodup & Hmem & ->).
    assert (Hx : "x" ∈ listing)
      by (apply Hmem, elem_of_union; left; by apply elem_of_singleton).
    assert (H2 : "2" ∈ listing)
      by (apply Hmem, elem_of_union; right; by apply elem_of_singleton).
    assert (Hall : forall y, y ∈ listing -> y = "x" \/ y = "2").
    { intros y Hy. apply Hmem in Hy.
      rewrite elem_of_union, !elem_of_singleton in Hy. tauto. }
    destruct listing as [|a [|b [|c listing]]].
    + by apply elem_of_nil in Hx.
    + apply list_elem_of_singleton in Hx, H2. congruence.
    + apply NoDup_cons in Hnodup as [Hab _].
      rewrite list_elem_of_singleton in Hab.
      assert (Ha : a = "x" \/ a = "2") by (apply Hall; by left).
      assert (Hb : b = "x" \/ b = "2") by (apply Hall; by right; left).
      destruct Ha as [->| ->], Hb as [->| ->]; [done|by left|by right|done].
    + exfalso.
      apply NoDup_cons in Hnodup as [Hnota Hnodup].
      apply NoDup_cons in Hnodup as [Hnotb _].
      rewrite !elem_of_cons in Hnota. rewrite elem_of_cons in Hnotb.
      assert (Ha : a = "x" \/ a = "2") by (apply Hall; by left).
      assert (Hb : b = "x" \/ b = "2") by (apply Hall; by right; left).
      assert (Hc : c = "x" \/ c = "2") by (apply Hall; by right; right; left).
      destruct Ha as [->| ->], Hb as [->| ->], Hc as [->| ->];
        first [by apply Hnota; auto|by apply Hnotb; auto].
  - intros [-> | ->]; [exists ["x"; "2"]|exists ["2"; "x"]];
      (split_and!; [by_computation| |reflexivity]);
      intros y;
      rewrite !elem_of_cons, elem_of_nil, elem_of_union, !elem_of_singleton; tauto.
Qed.

(** * Construction *)

Section ConstructionFacts.
Variable self : FiniteAutomaton.

Lemma epsilon_or_multiple_false state :
  epsilon_or_multiple self state = false
  <-> forall row, transitions self !! state = Some row ->
        row !! EPSILON = None
        /\ forall symbol dests, row !! symbol = Some dests -> length dests <= 1.
Proof.
  unfold epsilon_or_multiple.
  destruct (transitions self !! state) as [row|]; [|by split].
  rewrite orb_false_iff, bool_decide_eq_false, <- not_true_iff_false, existsb_exists.
  split.
  - intros [Heps Hmulti] ? [= <-]. split.
    + destruct (row !! EPSILON) eqn:E; [|done]. exfalso. apply Heps. by eexists.
    + intros symbol dests Hrow.
      destruct (decide (length dests <= 1)) as [|Hlong]; [done|].
      exfalso. apply Hmulti. exists (symbol, dests). split.
      * apply list_elem_of_In. by apply elem_of_map_to_list.
      * apply bool_decide_eq_true. simpl. lia.
  - intros Hrow. destruct (Hrow row eq_refl) as [Heps Hmulti]. split.
    + rewrite Heps. by intros [? ?].
    + intros ([symbol dests] & Hin%list_elem_of_In%elem_of_map_to_list
              & Hlen%bool_decide_eq_true).
      apply Hmulti in Hin. simpl in Hlen. lia.
Qed.

Lemma has_all_symbols_true state :
  has_all_symbols self state = true
  <-> exists row, transitions self !! state = Some row
        /\ forall symbol, symbol ∈ alphabet self -> is_Some (row !! symbol).
Proof.
  unfold has_all_symbols.
  destruct (transitions self !! state) as [row|].
  - rewrite forallb_forall. split.
    + intros Hall. exists row. split; [done|].
      intros symbol Hin%list_elem_of_In. by apply Hall, bool_decide_eq_true in Hin.
    + intros (? & [= <-] & Hall) symbol Hin%list_elem_of_In.
      by apply bool_decide_eq_true, Hall.
  - split; [done|]. by intros (? & ? & _).
Qed.

Lemma check_if_dfa_true :
  check_if_dfa self = true
  <-> (forall state, state ∈ states self -> epsilon_or_multiple self state = false)
      /\ (forall state, state ∈ states self -> state ∉ accept_states self ->
            has_all_symbols self state = true).
Proof.
  unfold check_if_dfa.
  destruct (existsb (epsilon_or_multiple self) (states self)) eqn:Hex.
  - split; [done|]. intros [Hnone _]. exfalso.
    apply existsb_exists in Hex as (state & Hin%list_elem_of_In & Htrue).
    apply Hnone in Hin. congruence.
  - rewrite forallb_forall. split.
    + intros Hall. split.
      * intros state Hin. destruct (epsilon_or_multiple self state) eqn:E; [|done].
        assert (existsb (epsilon_or_multiple self) (states self) = true); [|congruence].
        apply existsb_exists. exists state. split; [by apply list_elem_of_In|done].
      * intros state Hin Hnot. apply Hall, list_elem_of_In, list_elem_of_filter. done.
    + intros [_ Hall] state [Hnot Hin]%list_elem_of_In%list_elem_of_filter.
      by apply Hall.
Qed.

(** The entries appended for one state. *)
Lemma elem_of_state_violations state v :
  v ∈ state_violations self state
  <-> (state ∉ accept_states self)
      /\ exists symbol, symbol ∈ alphabet self
           /\ ((v = Missing state symbol /\ destinations (transitions self) state symbol = None)
               \/ (v = NotSingle state symbol
                   /\ exists dests, destinations (transitions self) state symbol = Some dests
                                    /\ length dests ≠ 1)).
Proof.
  unfold state_violations, destinations.
  destruct (decide (state ∈ accept_states self)) as [Hacc|Hacc].
  { split; [by intros ?%elem_of_nil|]. by intros [? _]. }
  destruct (transitions self !! state) as [row|].
  - rewrite list_elem_of_In, in_flat_map. split.
    + intros (symbol & Hin%list_elem_of_In & Hv). split; [done|].
      exists symbol. split; [done|].
      destruct (row !! symbol) as [dests|].
      * destruct (decide (length dests ≠ 1)); [|done].
        destruct Hv as [<-|[]]. right. split; [done|]. by exists dests.
      * destruct Hv as [<-|[]]. by left.
    + intros (_ & symbol & Hin & Hv). exists symbol.
      split; [by apply list_elem_of_In|].
      destruct Hv as [[-> ->]|(-> & dests & -> & Hlen)]; [by left|].
      rewrite decide_True by done. by left.
  - rewrite list_elem_of_In, in_map_iff. split.
    + intros (symbol & <- & Hin%list_elem_of_In). split; [done|].
      exists symbol. split; [done|]. by left.
    + intros (_ & symbol & Hin & [[-> _]|(_ & ? & ? & _)]); [|done].
      exists symbol. split; [done|by apply list_elem_of_In].
Qed.

Lemma elem_of_missing_transitions v :
  v ∈ missing_transitions self
  <-> exists state, state ∈ states self /\ v ∈ state_violations self state.
Proof.
  unfold missing_transitions. rewrite list_elem_of_In, in_flat_map.
  split; intros (state & Hin & Hv); exists state;
    (split; [by apply list_elem_of_In|by apply list_elem_of_In]).
Qed.

(** No entry at all is collected exactly when every pair of a declared
    non-accepting state and an alphabet symbol has one destination. *)
Lemma missing_transitions_nil :
  missing_transitions self = []
  <-> forall state symbol,
        state ∈ states self -> state ∉ accept_states self ->
        symbol ∈ alphabet self ->
        exists d, destinations (transitions self) state symbol = Some [d].
Proof.
  split.
  - intros Hnil state symbol Hstate Hacc Hsym.
    assert (Hnone : forall v, v ∉ state_violations self state).
    { intros v Hv. assert (Hin : v ∈ missing_transitions self)
        by (apply elem_of_missing_transitions; by exists state).
      rewrite Hnil in Hin. by apply elem_of_nil in Hin. }
    destruct (destinations (transitions self) state symbol) as [dests|] eqn:Hdest.
    + destruct dests as [|d [|d' dests]]; [| by exists d |].
      * exfalso. apply (Hnone (NotSingle state symbol)).
        apply elem_of_state_violations. split; [done|]. exists symbol.
        split; [done|]. right. split; [done|]. by exists [].
      * exfalso. apply (Hnone (NotSingle state symbol)).
        apply elem_of_state_violations. split; [done|]. exists symbol.
        split; [done|]. right. split; [done|]. by exists (d :: d' :: dests).
    + exfalso. apply (Hnone (Missing state symbol)).
      apply elem_of_state_violations. split; [done|]. exists symbol.
      split; [done|]. by left.
  - intros Hall. destruct (missing_transitions self) as [|v l] eqn:Hm; [done|].
    exfalso. assert (Hv : v ∈ missing_transitions self) by (rewrite Hm; left).
    apply elem_of_missing_transitions in Hv as (state & Hstate & Hv).
    apply elem_of_state_violations in Hv as (Hacc & symbol & Hsym & Hv).
    destruct (Hall state symbol Hstate Hacc Hsym) as [d Hd].
    destruct Hv as [[_ Hnone]|(_ & dests & Hsome & Hlen)]; [congruence|].
    rewrite Hd in Hsome. injection Hsome as <-. done.
Qed.
End ConstructionFacts.

(** C9: when [validate_transitions] runs with [is_dfa] true, the list it
    collects holds an entry for a pair (state, symbol) exactly when the
    state is a declared non-accepting state, the symbol is in the alphabet,
    and the pair either has no entry in the table (reported as missing) or
    has one whose number of destinations is not one; accept states never
    appear in it.  When the collection is not empty it raises one
    [TransitionError], whose text is the heading followed by one line for
    each violating pair, [(state, symbol)] for a missing entry and the same
    with [ - multiple transitions not allowed in DFA] for a wrong number of
    destinations, the pairs taken state by state in the order of [states]
    and symbol by symbol in the order of [alphabet].  It returns normally
    otherwise, which happens exactly when every such pair has one
    destination. *)
Theorem validate_transitions_collects (self : FiniteAutomaton) :
  is_dfa self = true ->
  (forall state symbol,
      Missing state symbol ∈ missing_transitions self
      <-> state ∈ states self /\ (state ∉ accept_states self)
          /\ symbol ∈ alphabet self
          /\ destinations (transitions self) state symbol = None)
  /\ (forall state symbol,
        NotSingle state symbol ∈ missing_transitions self
        <-> state ∈ states self /\ (state ∉ accept_states self)
            /\ symbol ∈ alphabet self
            /\ exists dests, destinations (transitions self) state symbol = Some dests
                             /\ length dests ≠ 1)
  /\ (missing_transitions self ≠ [] ->
        validate_transitions self
        = Raise (TransitionError (transition_error_msg (missing_transitions self)))
        /\ validate_transitions self
           = Raise (TransitionError
               ("DFA Validation Errors:" +:+ nl +:+
                join nl
                  (flat_map
                     (fun state =>
                        if decide (state ∈ accept_states self) then []
                        else
                          flat_map
                            (fun symbol =>
                               match destinations (transitions self) state symbol with
                               | None => ["(" +:+ state +:+ ", " +:+ symbol +:+ ")"]
                               | Some dests =>
                                   if decide (length dests ≠ 1)
                                   then ["(" +:+ state +:+ ", " +:+ symbol +:+ ")"
                                         +:+ " - multiple transitions not allowed in DFA"]
                                   else []
                               end)
                            (alphabet self))
                     (states self)))))
  /\ (validate_transitions self = Return tt
        <-> forall state symbol,
              state ∈ states self -> state ∉ accept_states self ->
              symbol ∈ alphabet self ->
              exists d, destinations (transitions self) state symbol = Some [d]).
Proof.
  intros Hflag. split_and!.
  - intros state symbol. rewrite elem_of_missing_transitions. split.
    + intros (state0 & Hstate & (Hacc & symbol0 & Hsym & Hv)%elem_of_state_violations).
      destruct Hv as [[[= <- <-] Hnone]|[[=] _]]. done.
    + intros (Hstate & Hacc & Hsym & Hnone). exists state. split; [done|].
      apply elem_of_state_violations. split; [done|]. exists symbol.
      split; [done|]. by left.
  - intros state symbol. rewrite elem_of_missing_transitions. split.
    + intros (state0 & Hstate & (Hacc & symbol0 & Hsym & Hv)%elem_of_state_violations).
      destruct Hv as [[[=] _]|[[= <- <-] Hsome]]. done.
    + intros (Hstate & Hacc & Hsym & Hsome). exists state. split; [done|].
      apply elem_of_state_violations. split; [done|]. exists symbol.
      split; [done|]. by right.
  - intros Hne.
    assert (Hraise : validate_transitions self
                     = Raise (TransitionError
                                (transition_error_msg (missing_transitions self)))).
    { unfold validate_transitions. rewrite Hflag. simpl.
      by destruct (missing_transitions self). }
    split; [done|]. rewrite Hraise. unfold transition_error_msg.
    match goal with
    | |- Raise (TransitionError (_ +:+ _ +:+ join _ ?collected))
         = Raise (TransitionError (_ +:+ _ +:+ join _ ?lines)) =>
        enough (Hlines : collected = lines) by (by rewrite Hlines)
    end.
    unfold missing_transitions.
    induction (states self) as [|state rest IH]; simpl; [done|].
    rewrite map_app, IH. f_equal. clear IH.
    unfold state_violations, destinations.
    destruct (decide (state ∈ accept_states self)); [done|].
    destruct (transitions self !! state) as [row|].
    + induction (alphabet self) as [|symbol symbols IHsymbols]; simpl; [done|].
      rewrite map_app, IHsymbols. f_equal.
      destruct (row !! symbol) as [dests|]; [|done].
      by destruct (decide (length dests ≠ 1)).
    + induction (alphabet self) as [|symbol symbols IHsymbols]; simpl; [done|].
      by rewrite IHsymbols.
  - rewrite <- missing_transitions_nil. unfold validate_transitions.
    rewrite Hflag. simpl. by destruct (missing_transitions self).
Qed.

Lemma validate_transitions_collects_witness :
  let self := set_is_dfa
                (store_attributes ["q0"; "q1"] ["0"; "1"] incomplete_table "q0" {["q1"]})
                true in
  is_dfa self = true
  /\ Missing "q0" "1" ∈ missing_transitions self
  /\ validate_transitions self
     = Raise (TransitionError (transition_error_msg (missing_transitions self)))
  /\ validate_transitions self
     = Raise (TransitionError ("DFA Validation Errors:" +:+ nl +:+ "(q0, 1)")).
Proof.
  intros self.
  destruct (validate_transitions_collects self eq_refl) as (Hmissing & _ & Hraise & _).
  assert (Hne : missing_transitions self ≠ []) by (vm_compute; discriminate).
  destruct (Hraise Hne) as [Hlist Htext].
  subst self.
  split_and!.
  - reflexivity.
  - apply Hmissing. split_and!.
    + by_computation.
    + by_computation.
    + by_computation.
    + reflexivity.
  - exact Hlist.
  - etrans; [exact Htext|]. vm_compute. reflexivity.
Defined.

(** C4: when no destination list of the table is empty, [__init__] raises
    nothing and returns the automaton with [is_dfa] set to the result of
    [check_if_dfa]: whenever [check_if_dfa] answers true, every pair of a
    declared non-accepting state and an alphabet symbol already has an
    entry with exactly one destination, so [validate_transitions] collects
    nothing. *)
Theorem init_never_raises
    (states0 alphabet0 : list string)
    (transitions0 : gmap string (gmap string (list string)))
    (start_state0 : string) (accept_states0 : gset string) :
  map_Forall (fun _ row => map_Forall (fun _ dests => dests ≠ ([] : list string)) row)
             transitions0 ->
  let self := store_attributes states0 alphabet0 transitions0
                start_state0 accept_states0 in
  __init__ states0 alphabet0 transitions0 start_state0 accept_states0
  = Return (set_is_dfa self (check_if_dfa self))
  /\ (check_if_dfa self = true ->
        missing_transitions (set_is_dfa self true) = []
        /\ forall state symbol,
             state ∈ states0 -> state ∉ accept_states0 -> symbol ∈ alphabet0 ->
             exists d, destinations transitions0 state symbol = Some [d]).
Proof.
  intros Hnonempty self.
  assert (Hone : check_if_dfa self = true ->
            forall state symbol,
              state ∈ states0 -> state ∉ accept_states0 -> symbol ∈ alphabet0 ->
              exists d, destinations transitions0 state symbol = Some [d]).
  { intros [Hsingle Hall]%check_if_dfa_true state symbol Hstate Hacc Hsym.
    destruct (proj1 (has_all_symbols_true self state) (Hall state Hstate Hacc))
      as (row & Hrow & Hsyms).
    destruct (Hsyms symbol Hsym) as [dests Hdests].
    destruct (proj1 (epsilon_or_multiple_false self state) (Hsingle state Hstate) row Hrow)
      as [_ Hlen].
    specialize (Hlen symbol dests Hdests).
    pose proof (Hnonempty state row Hrow symbol dests Hdests) as Hne.
    unfold destinations. simpl in Hrow. rewrite Hrow, Hdests.
    destruct dests as [|d [|d' dests]]; [done|by exists d|simpl in Hlen; lia]. }
  assert (Hnil : check_if_dfa self = true -> missing_transitions (set_is_dfa self true) = []).
  { intros Hdfa. apply missing_transitions_nil. by apply Hone. }
  split; [|by split; [apply Hnil|apply Hone]].
  unfold __init__. fold self. destruct (check_if_dfa self) eqn:Hdfa; simpl; [|done].
  unfold validate_transitions. simpl. by rewrite Hnil.
Qed.

Lemma init_never_raises_witness :
  map_Forall (fun _ row => map_Forall (fun _ dests => dests ≠ ([] : list string)) row)
             two_state_table
  /\ __init__ ["q0"; "q1"] ["0"; "1"] two_state_table "q0" {["q1"]}
     = Return (set_is_dfa
                 (store_attributes ["q0"; "q1"] ["0"; "1"] two_state_table "q0" {["q1"]})
                 true).
Proof.
  assert (Hne : map_Forall
                  (fun _ row => map_Forall (fun _ dests => dests ≠ ([] : list string)) row)
                  two_state_table).
  { by_computation. }
  split; [exact Hne|].
  destruct (init_never_raises ["q0"; "q1"] ["0"; "1"] two_state_table "q0" {["q1"]} Hne)
    as [Hinit _].
  rewrite Hinit. reflexivity.
Defined.

(** C2, as stated, fails: in the automaton with states q0 and q1, alphabet
    {a}, accept state q1 and the moves q0,a -> q1; q1,a -> q0; q1,a -> q1,
    the only non-accepting state has exactly one destination on every
    symbol and no epsilon move exists anywhere, yet the automaton is
    labelled NFA, because the accept state q1 has two destinations on a. *)
Lemma complete_without_epsilon_labelled_NFA :
  one_destination_per_symbol fork_table ["q0"; "q1"] ["a"] {["q1"]}
  /\ map_Forall (fun _ row => row !! EPSILON = None) fork_table
  /\ exists self,
       __init__ ["q0"; "q1"] ["a"] fork_table "q0" {["q1"]} = Return self
       /\ automaton_type self = NFA.
Proof.
  split_and!.
  - by_computation.
  - by_computation.
  - eexists. split; vm_compute; reflexivity.
Qed.

Section Classification.
Variables (states0 alphabet0 : list string)
          (transitions0 : gmap string (gmap string (list string)))
          (start_state0 : string) (accept_states0 : gset string).

Let self := store_attributes states0 alphabet0 transitions0
              start_state0 accept_states0.

Lemma destinations_epsilon_or_multiple state :
  epsilon_or_multiple self state = false
  <-> destinations transitions0 state EPSILON = None
      /\ map_Forall (fun _ dests => length dests <= 1)
                    (default ∅ (transitions0 !! state)).
Proof.
  rewrite epsilon_or_multiple_false. unfold destinations. simpl.
  destruct (transitions0 !! state) as [row|]; simpl.
  - split.
    + intros Hrow. destruct (Hrow row eq_refl) as [Heps Hlen]. split; [done|].
      intros symbol dests. apply Hlen.
    + intros [Heps Hlen] ? [= <-]. split; [done|]. intros symbol dests. apply Hlen.
  - split; [|done]. intros _. split; [done|]. intros symbol dests.
    by rewrite lookup_empty.
Qed.

Lemma not_check_if_dfa :
  has_epsilon_at transitions0 states0 \/ has_multiple_at transitions0 states0 ->
  check_if_dfa self = false.
Proof.
  intros Hbad. apply not_true_iff_false. intros [Hnone _]%check_if_dfa_true.
  destruct Hbad as [Hbad|Hbad]; apply Exists_exists in Hbad as (state & Hin & Hbad);
    apply (Hnone state), destinations_epsilon_or_multiple in Hin as [Heps Hlen].
  - rewrite Heps in Hbad. by destruct Hbad.
  - destruct Hbad as (symbol & dests & Hrow & Hlong).
    apply Hlen in Hrow. simpl in *. lia.
Qed.

Lemma automaton_type_not_dfa :
  automaton_type (set_is_dfa self false)
  = if decide (has_epsilon_at transitions0 states0) then EPSILON_NFA else NFA.
Proof.
  unfold automaton_type. simpl.
  destruct (existsb _ states0) eqn:Hex.
  - rewrite decide_True; [done|].
    apply existsb_exists in Hex as (state & Hin%list_elem_of_In & Heps%bool_decide_eq_true).
    apply Exists_exists. exists state. split; [done|].
    unfold destinations. by destruct (transitions0 !! state).
  - rewrite decide_False; [done|].
    intros (state & Hin & Heps)%Exists_exists.
    apply not_true_iff_false in Hex. apply Hex, existsb_exists.
    exists state. split; [by apply list_elem_of_In|].
    apply bool_decide_eq_true. unfold destinations in Heps.
    destruct (transitions0 !! state); [done|by destruct Heps].
Qed.

Lemma init_not_dfa :
  check_if_dfa self = false ->
  __init__ states0 alphabet0 transitions0 start_state0 accept_states0
  = Return (set_is_dfa self false).
Proof. intros Hdfa. unfold __init__. fold self. by rewrite Hdfa. Qed.

Lemma check_if_dfa_complete :
  alphabet0 ≠ [] ->
  no_epsilon_at transitions0 states0 ->
  single_destinations_at transitions0 states0 ->
  one_destination_per_symbol transitions0 states0 alphabet0 accept_states0 ->
  check_if_dfa self = true /\ missing_transitions (set_is_dfa self true) = [].
Proof.
  intros Halpha Heps Hsingle Hone.
  assert (Hdest : forall state symbol,
            state ∈ states0 -> state ∉ accept_states0 -> symbol ∈ alphabet0 ->
            exists d, destinations transitions0 state symbol = Some [d]).
  { intros state symbol Hstate Hacc Hsym.
    pose proof (proj1 (Forall_forall _ _) Hone state Hstate Hacc) as Hsyms.
    pose proof (proj1 (Forall_forall _ _) Hsyms symbol Hsym) as Hlen.
    cbv beta in Hlen.
    destruct (destinations transitions0 state symbol) as [[|d [|d' dests]]|];
      simpl in Hlen; [discriminate Hlen|by exists d|discriminate Hlen|discriminate Hlen]. }
  split; [|by apply missing_transitions_nil].
  apply check_if_dfa_true. split.
  - intros state Hstate. apply destinations_epsilon_or_multiple. split.
    + by apply (proj1 (Forall_forall _ _) Heps).
    + by apply (proj1 (Forall_forall _ _) Hsingle).
  - intros state Hstate Hacc. apply has_all_symbols_true.
    destruct alphabet0 as [|symbol0 alpha] eqn:Ha; [done|].
    destruct (Hdest state symbol0 Hstate Hacc) as [d0 Hd0]; [by left|].
    unfold destinations in Hd0. simpl.
    destruct (transitions0 !! state) as [row|] eqn:Hrow; [|done].
    exists row. split; [done|]. intros symbol Hsym.
    destruct (Hdest state symbol Hstate Hacc Hsym) as [d Hd].
    unfold destinations in Hd. rewrite Hrow in Hd. by exists [d].
Qed.
End Classification.

(** C2, amended: an automaton over a non-empty alphabet in which no
    declared state has an epsilon entry or an entry with several
    destinations, and every declared non-accepting state has exactly one
    destination per alphabet symbol, is built and labelled DFA; an automaton
    in which some declared state has an epsilon entry is built, whatever is
    missing, and labelled EPSILON_NFA; one in which some declared state has
    an entry with several destinations and no declared state has an epsilon
    entry is built, whatever is missing, and labelled NFA. *)
Theorem automaton_type_classification
    (states0 alphabet0 : list string)
    (transitions0 : gmap string (gmap string (list string)))
    (start_state0 : string) (accept_states0 : gset string) :
  (alphabet0 ≠ [] ->
   no_epsilon_at transitions0 states0 ->
   single_destinations_at transitions0 states0 ->
   one_destination_per_symbol transitions0 states0 alphabet0 accept_states0 ->
   exists self,
     __init__ states0 alphabet0 transitions0 start_state0 accept_states0 = Return self
     /\ automaton_type self = DFA)
  /\ (has_epsilon_at transitions0 states0 ->
      exists self,
        __init__ states0 alphabet0 transitions0 start_state0 accept_states0 = Return self
        /\ automaton_type self = EPSILON_NFA)
  /\ (has_multiple_at transitions0 states0 ->
      no_epsilon_at transitions0 states0 ->
      exists self,
        __init__ states0 alphabet0 transitions0 start_state0 accept_states0 = Return self
        /\ automaton_type self = NFA).
Proof.
  split_and!.
  - intros Halpha Heps Hsingle Hone.
    destruct (check_if_dfa_complete states0 alphabet0 transitions0 start_state0
                accept_states0 Halpha Heps Hsingle Hone) as [Hdfa Hnil].
    eexists. split.
    + unfold __init__. rewrite Hdfa. simpl. unfold validate_transitions. simpl.
      rewrite Hnil. reflexivity.
    + reflexivity.
  - intros Heps. eexists. split.
    + apply init_not_dfa, not_check_if_dfa. by left.
    + rewrite automaton_type_not_dfa. by rewrite decide_True.
  - intros Hmulti Heps. eexists. split.
    + apply init_not_dfa, not_check_if_dfa. by right.
    + rewrite automaton_type_not_dfa. rewrite decide_False; [done|].
      intros (state & Hin & Hsome)%Exists_exists.
      rewrite (proj1 (Forall_forall _ _) Heps state Hin) in Hsome. by destruct Hsome.
Qed.

Lemma automaton_type_classification_witness :
  (exists self,
      __init__ ["q0"; "q1"] ["0"; "1"] two_state_table "q0" {["q1"]} = Return self
      /\ automaton_type self = DFA)
  /\ (exists self,
        __init__ ["q0"; "q1"; "q2"] ["a"] epsilon_table "q0" {["q2"]} = Return self
        /\ automaton_type self = EPSILON_NFA)
  /\ (exists self,
        __init__ ["q0"; "q1"] ["a"] fork_table "q0" {["q1"]} = Return self
        /\ automaton_type self = NFA).
Proof.
  split_and!.
  - apply (automaton_type_classification
             ["q0"; "q1"] ["0"; "1"] two_state_table "q0" {["q1"]}).
    + discriminate.
    + unfold no_epsilon_at. by_computation.
    + unfold single_destinations_at. by_computation.
    + unfold one_destination_per_symbol. by_computation.
  - apply (automaton_type_classification
             ["q0"; "q1"; "q2"] ["a"] epsilon_table "q0" {["q2"]}).
    unfold has_epsilon_at. by_computation.
  - apply (automaton_type_classification
             ["q0"; "q1"] ["a"] fork_table "q0" {["q1"]}).
    + unfold has_multiple_at. by_computation.
    + unfold no_epsilon_at. by_computation.
Defined.

Lemma simulate_follows_spec_witness :
  let self := set_is_dfa
                (store_attributes ["q0"; "q1"] ["0"; "1"] two_state_table "q0" {["q1"]})
                true in
  Forall (fun symbol => symbol ∈ alphabet self) ["0"; "1"; "1"]
  /\ simulate self ["0"; "1"; "1"] = Return true
  /\ simulate_spec self ["0"; "1"; "1"] true.
Proof.
  intros self.
  assert (Hall : Forall (fun symbol => symbol ∈ alphabet self) ["0"; "1"; "1"]).
  { subst self. by_computation. }
  split; [exact Hall|].
  pose proof (simulate_follows_spec self ["0"; "1"; "1"] Hall)
    as (verdict & Hsim & Hspec & _).
  assert (Hrun : simulate self ["0"; "1"; "1"] = Return true)
    by (vm_compute; reflexivity).
  rewrite Hsim in Hrun. injection Hrun as ->. by split.
Defined.

(** C3, as stated, fails: for states q0 and q1, alphabet {0,1}, the single
    move q0,0 -> q1, start q0 and accept state q1, the construction raises
    no [TransitionError]. *)
Lemma incomplete_automaton_is_built :
  ~ exists msg,
      __init__ ["q0"; "q1"] ["0"; "1"] incomplete_table "q0" {["q1"]}
      = Raise (TransitionError msg).
Proof.
  intros [msg Hraise]. vm_compute in Hraise. discriminate Hraise.
Qed.

(** C3, amended: for that automaton [check_if_dfa] answers false, since q0
    has no move on 1, so [validate_transitions] is not run: the automaton is
    built with [is_dfa] false and labelled NFA.  Run with [is_dfa] true on
    the same attributes, [validate_transitions] raises the
    [TransitionError] whose message lists the pair (q0, 1) and nothing else;
    no pair is listed for the accept state q1. *)
Theorem incomplete_scenario :
  let self := store_attributes ["q0"; "q1"] ["0"; "1"] incomplete_table "q0" {["q1"]} in
  check_if_dfa self = false
  /\ __init__ ["q0"; "q1"] ["0"; "1"] incomplete_table "q0" {["q1"]}
     = Return (set_is_dfa self false)
  /\ automaton_type (set_is_dfa self false) = NFA
  /\ missing_transitions (set_is_dfa self true) = [Missing "q0" "1"]
  /\ validate_transitions (set_is_dfa self true)
     = Raise (TransitionError ("DFA Validation Errors:" +:+ nl +:+ "(q0, 1)")).
Proof.
  intros self. subst self. split_and!; vm_compute; reflexivity.
Qed.

(** C5, as stated, fails: with the single state q0, the start state q5 and
    the accept state q7, neither of which is a declared state, [__init__]
    returns an automaton. *)
Lemma undeclared_start_and_accept_are_built :
  ("q5" ∉ ["q0"])
  /\ ~ ({["q7"]} : gset string) ⊆ list_to_set ["q0"]
  /\ __init__ ["q0"] ["a"] loop_table "q5" {["q7"]}
     = Return (set_is_dfa (store_attributes ["q0"] ["a"] loop_table "q5" {["q7"]}) true).
Proof.
  split_and!.
  - by_computation.
  - by_computation.
  - vm_compute. reflexivity.
Qed.

(** C5, amended: the membership of the start state and of the accept
    states in the declared states is checked by [validate_basic_inputs],
    which [simulate_automaton] runs before it builds the automaton: when the
    start state is not a declared state, or some accept state is not, it
    raises [ValueError] and no automaton is built.  [__init__] itself makes
    no such check: whether it returns or raises does not depend on the start
    state. *)
Theorem basic_inputs_checked_before_construction
    (states0 alphabet0 : list string)
    (transitions0 : gmap string (gmap string (list string)))
    (start_state0 : string) (accept_states0 : gset string) :
  start_state0 ∉ states0 \/ (exists q, q ∈ accept_states0 /\ q ∉ states0) ->
  (exists msg,
      validate_basic_inputs states0 alphabet0 start_state0 accept_states0
      = Raise (ValueError msg))
  /\ (exists msg,
        build_automaton states0 alphabet0 transitions0 start_state0 accept_states0
        = Raise (ValueError msg))
  /\ (forall other_start,
        __init__ states0 alphabet0 transitions0 other_start accept_states0
        = match __init__ states0 alphabet0 transitions0 start_state0 accept_states0 with
          | Return self =>
              Return (set_is_dfa
                        (store_attributes states0 alphabet0 transitions0
                           other_start accept_states0)
                        (is_dfa self))
          | Raise e => Raise e
          end).
Proof.
  intros Hbad.
  assert (Hcheck : exists msg,
            validate_basic_inputs states0 alphabet0 start_state0 accept_states0
            = Raise (ValueError msg)).
  { unfold validate_basic_inputs.
    destruct (decide (states0 = [])); [by eexists|].
    destruct (decide (alphabet0 = [])); [by eexists|].
    destruct (decide (start_state0 = "")); [by eexists|].
    destruct (decide (start_state0 ∉ states0)) as [|Hstart]; [by eexists|].
    destruct (decide (accept_states0 = ∅)); [by eexists|].
    destruct (decide (accept_states0 ∖ list_to_set states0 ≠ ∅)) as [|Hinv];
      [by eexists|].
    exfalso. destruct Hbad as [?|(q & Hq & Hnot)]; [done|].
    apply Hinv. intros Hempty.
    assert (Hin : q ∈ accept_states0 ∖ list_to_set states0).
    { apply elem_of_difference. split; [done|]. by rewrite elem_of_list_to_set. }
    rewrite Hempty in Hin. by apply elem_of_empty in Hin. }
  split_and!.
  - exact Hcheck.
  - destruct Hcheck as [msg Hcheck]. exists msg. unfold build_automaton.
    by rewrite Hcheck.
  - intros other_start. unfold __init__.
    change (check_if_dfa (store_attributes states0 alphabet0 transitions0
                            other_start accept_states0))
      with (check_if_dfa (store_attributes states0 alphabet0 transitions0
                            start_state0 accept_states0)).
    destruct (check_if_dfa _); simpl; [|done].
    unfold validate_transitions. simpl.
    change (missing_transitions
              (set_is_dfa (store_attributes states0 alphabet0 transitions0
                             other_start accept_states0) true))
      with (missing_transitions
              (set_is_dfa (store_attributes states0 alphabet0 transitions0
                             start_state0 accept_states0) true)).
    by destruct (missing_transitions _).
Qed.

Lemma basic_inputs_checked_before_construction_witness :
  ("q5" ∉ ["q0"] \/ exists q, q ∈ ({["q7"]} : gset string) /\ q ∉ ["q0"])
  /\ exists msg,
       build_automaton ["q0"] ["a"] loop_table "q5" {["q7"]} = Raise (ValueError msg).
Proof.
  assert (Hbad : "q5" ∉ ["q0"] \/ exists q, q ∈ ({["q7"]} : gset string) /\ q ∉ ["q0"]).
  { left. by_computation. }
  split; [exact Hbad|].
  exact (proj1 (proj2 (basic_inputs_checked_before_construction
                         ["q0"] ["a"] loop_table "q5" {["q7"]} Hbad))).
Defined.

(** C7, as stated, fails: in the two-state DFA of the scenario the input 1
    leaves the automaton in q0 and the input 00 brings it back to q0, which
    is not an accept state; both are rejected. *)
Lemma scenario_inputs_rejected :
  exists self,
    __init__ ["q0"; "q1"] ["0"; "1"] two_state_table "q0" {["q1"]} = Return self
    /\ simulate self ["1"] <> Return true
    /\ simulate self ["0"; "0"] <> Return true.
Proof.
  eexists. split; [vm_compute; reflexivity|].
  split; intros Hsim; vm_compute in Hsim; discriminate Hsim.
Qed.

(** C7, amended: for the DFA with states q0 and q1, alphabet {0,1}, moves
    q0,0 -> q1; q0,1 -> q0; q1,0 -> q0; q1,1 -> q1, start q0 and accept
    state q1, [simulate] returns false on 1, false on 00 and false on the
    empty input. *)
Theorem scenario_dfa_verdicts :
  exists self,
    __init__ ["q0"; "q1"] ["0"; "1"] two_state_table "q0" {["q1"]} = Return self
    /\ automaton_type self = DFA
    /\ simulate self ["1"] = Return false
    /\ simulate self ["0"; "0"] = Return false
    /\ simulate self [] = Return false.
Proof.
  eexists. split; [vm_compute; reflexivity|].
  split_and!; vm_compute; reflexivity.
Qed.


(** * Acceptance *)

Section Acceptance.
Variable self : FiniteAutomaton.

(** The closure is closed under epsilon moves. *)
Lemma get_epsilon_closure_closed (X : gset string) s d :
  s ∈ get_epsilon_closure (transitions self) X ->
  eps_step (transitions self) s d ->
  d ∈ get_epsilon_closure (transitions self) X.
Proof.
  intros Hs Hstep.
  apply (get_epsilon_closure_reach (transitions self) X d).
  apply (get_epsilon_closure_reach (transitions self) X s) in Hs as (s0 & Hs0 & Hrtc).
  exists s0. split; [done|]. by eapply rtc_r.
Qed.

Lemma simulate_loop_current_states_after input_string : forall current,
  simulate_loop self current input_string
  = match current_states_after self current input_string with
    | Some final => bool_decide (final ∩ accept_states self ≠ ∅)
    | None => false
    end.
Proof.
  induction input_string as [|symbol rest IH]; intros current; simpl; [done|].
  destruct (decide _); [done|apply IH].
Qed.

Lemma path_epsilons q q' w q'' :
  rtc (eps_step (transitions self)) q q' -> path self q' w q'' -> path self q w q''.
Proof.
  induction 1 as [|x y z Hxy _ IH]; [done|].
  intros Hpath. eapply path_epsilon; [done|]. by apply IH.
Qed.

Lemma path_nil_inv q q' :
  path self q [] q' -> rtc (eps_step (transitions self)) q q'.
Proof.
  intros Hpath. remember [] as w eqn:Hw.
  induction Hpath as [q|q q1 w q' Hstep _ IH|]; [apply rtc_refl| |done].
  eapply rtc_l; [done|]. by apply IH.
Qed.

(** A path that reads [symbol] first makes epsilon moves, then a move on
    [symbol]. *)
Lemma path_cons_inv q symbol rest q' :
  path self q (symbol :: rest) q' ->
  exists q1 q2,
    rtc (eps_step (transitions self)) q q1
    /\ symbol_step self q1 symbol q2
    /\ path self q2 rest q'.
Proof.
  intros Hpath. remember (symbol :: rest) as w eqn:Hw.
  induction Hpath as [|q q1 w q' Hstep _ IH|q q1 symbol0 w q' Hstep Hpath _];
    [done| |].
  - destruct (IH Hw) as (q2 & q3 & Hrtc & Hsym & Hrest).
    exists q2, q3. split; [by eapply rtc_l|done].
  - injection Hw as -> ->. exists q, q1. split; [apply rtc_refl|done].
Qed.

(** From a set closed under epsilon moves, the loop answers true exactly
    when some state of the set has a path over the input to an accept
    state. *)
Lemma simulate_loop_path input_string : forall current : gset string,
  (forall s d, s ∈ current -> eps_step (transitions self) s d -> d ∈ current) ->
  simulate_loop self current input_string = true
  <-> exists s q, s ∈ current /\ q ∈ accept_states self /\ path self s input_string q.
Proof.
  induction input_string as [|symbol rest IH]; intros current Hclosed; simpl.
  - rewrite bool_decide_eq_true. split.
    + intros (q & Hq)%set_choose_L. apply elem_of_intersection in Hq as [Hq Hacc].
      exists q, q. split_and!; [done|done|constructor].
    + intros (s & q & Hs & Hacc & Hpath%path_nil_inv).
      assert (Hq : q ∈ current).
      { clear Hacc. induction Hpath as [|x y z Hxy _ IHp]; [done|].
        apply IHp. by eapply Hclosed. }
      intros Hempty. assert (Hin : q ∈ current ∩ accept_states self)
        by (by apply elem_of_intersection).
      rewrite Hempty in Hin. by apply elem_of_empty in Hin.
  - set (U := next_states self current symbol).
    set (N := get_epsilon_closure (transitions self) U).
    assert (HU : is_symbol_image self current symbol U) by apply next_states_image.
    assert (HN : is_epsilon_closure (transitions self) U N)
      by apply get_epsilon_closure_reach.
    assert (Hstay : forall s s1, s ∈ current ->
              rtc (eps_step (transitions self)) s s1 -> s1 ∈ current).
    { intros s s1 Hs Hrtc. induction Hrtc as [|x y z Hxy _ IHp]; [done|].
      apply IHp. by eapply Hclosed. }
    assert (Hnext : forall s q, s ∈ current -> path self s (symbol :: rest) q ->
              exists s', s' ∈ N /\ path self s' rest q).
    { intros s q Hs (q1 & q2 & Hrtc & Hsym & Hrest)%path_cons_inv.
      exists q2. split; [|done]. apply (HN q2). exists q2. split; [|apply rtc_refl].
      apply (HU q2). exists q1. split; [by eapply Hstay|done]. }
    destruct (decide (N = ∅)) as [Hempty|Hne].
    + split; [done|]. intros (s & q & Hs & _ & Hpath).
      destruct (Hnext s q Hs Hpath) as (s' & Hs' & _).
      rewrite Hempty in Hs'. by apply elem_of_empty in Hs'.
    + rewrite IH by (intros s d; apply get_epsilon_closure_closed). split.
      * intros (s' & q & Hs' & Hacc & Hpath).
        apply (HN s') in Hs' as (u & Hu & Hrtc).
        apply (HU u) in Hu as (s & Hs & Hsym).
        exists s, q. split_and!; [done|done|].
        eapply path_symbol; [done|]. by eapply path_epsilons.
      * intros (s & q & Hs & Hacc & Hpath).
        destruct (Hnext s q Hs Hpath) as (s' & Hs' & Hrest).
        by exists s', q.
Qed.
End Acceptance.

(** X1: on an input over the alphabet, [simulate] answers true exactly when
    the automaton has a path from the start state to an accept state that
    reads the input, epsilon moves allowed anywhere; otherwise it answers
    false. *)
Theorem simulate_accepts_iff_path (self : FiniteAutomaton) (input_string : list string) :
  Forall (fun symbol => symbol ∈ alphabet self) input_string ->
  (simulate self input_string = Return true
   <-> exists q, q ∈ accept_states self /\ path self (start_state self) input_string q)
  /\ (simulate self input_string = Return false
      <-> ~ exists q, q ∈ accept_states self
                      /\ path self (start_state self) input_string q).
Proof.
  intros Hall. unfold simulate. rewrite validate_input_string_ok by done. simpl.
  set (C0 := get_epsilon_closure (transitions self) {[start_state self]}).
  assert (Hloop : simulate_loop self C0 input_string = true
                  <-> exists q, q ∈ accept_states self
                                /\ path self (start_state self) input_string q).
  { rewrite simulate_loop_path by (intros s d; apply get_epsilon_closure_closed).
    split.
    - intros (s & q & Hs & Hacc & Hpath). exists q. split; [done|].
      apply (get_epsilon_closure_reach (transitions self) {[start_state self]} s)
        in Hs as (s0 & ->%elem_of_singleton & Hrtc).
      by eapply path_epsilons.
    - intros (q & Hacc & Hpath). exists (start_state self), q. split_and!; [|done|done].
      apply closure_loop_extensive. by apply elem_of_singleton. }
  rewrite <- Hloop. destruct (simulate_loop self C0 input_string); split; split;
    intros H; try done; try (injection H as H; done); congruence.
Qed.

Lemma simulate_accepts_iff_path_witness :
  let self := set_is_dfa
                (store_attributes ["q0"; "q1"; "q2"] ["a"] epsilon_table "q0" {["q2"]})
                false in
  Forall (fun symbol => symbol ∈ alphabet self) ["a"]
  /\ (simulate self ["a"] = Return true
      <-> exists q, q ∈ accept_states self /\ path self (start_state self) ["a"] q).
Proof.
  intros self.
  assert (Hall : Forall (fun symbol => symbol ∈ alphabet self) ["a"]).
  { subst self. by_computation. }
  split; [exact Hall|].
  exact (proj1 (simulate_accepts_iff_path self ["a"] Hall)).
Defined.


(** * More on the epsilon closure *)

Section ClosureAlgebra.
Variable t : gmap string (gmap string (list string)).

Lemma elem_of_get_epsilon_closure (X : gset string) d :
  d ∈ get_epsilon_closure t X <-> exists s, s ∈ X /\ rtc (eps_step t) s d.
Proof. apply get_epsilon_closure_reach. Qed.

Lemma get_epsilon_closure_empty : get_epsilon_closure t ∅ = ∅.
Proof.
  apply set_eq. intros d. rewrite elem_of_get_epsilon_closure. split.
  - intros (s & Hs & _). by apply elem_of_empty in Hs.
  - by intros ?%elem_of_empty.
Qed.

Lemma get_epsilon_closure_fixed (X : gset string) :
  get_epsilon_closure t X = X
  <-> forall s d, s ∈ X -> eps_step t s d -> d ∈ X.
Proof.
  split.
  - intros Hfix s d Hs Hstep. rewrite <- Hfix. apply elem_of_get_epsilon_closure.
    exists s. split; [done|]. by apply rtc_once.
  - intros Hclosed. apply set_eq. intros d. rewrite elem_of_get_epsilon_closure. split.
    + intros (s & Hs & Hrtc). induction Hrtc as [|x y z Hxy _ IH]; [done|].
      apply IH. by eapply Hclosed.
    + intros Hd. exists d. split; [done|apply rtc_refl].
Qed.
End ClosureAlgebra.

(** X2: the epsilon closure of the empty set is empty, and a closure is
    empty only if the set it was taken of is; [get_epsilon_closure] is
    monotone and distributes over unions. *)
Theorem get_epsilon_closure_algebra (t : gmap string (gmap string (list string))) :
  get_epsilon_closure t ∅ = ∅
  /\ (forall X : gset string, get_epsilon_closure t X = ∅ <-> X = ∅)
  /\ (forall X Y : gset string,
        X ⊆ Y -> get_epsilon_closure t X ⊆ get_epsilon_closure t Y)
  /\ (forall X Y : gset string,
        get_epsilon_closure t (X ∪ Y)
        = get_epsilon_closure t X ∪ get_epsilon_closure t Y).
Proof.
  split_and!.
  - apply get_epsilon_closure_empty.
  - intros X. split.
    + intros Hempty. apply set_eq. intros s. split; [|by intros ?%elem_of_empty].
      intros Hs. rewrite <- Hempty. by apply closure_loop_extensive.
    + intros ->. apply get_epsilon_closure_empty.
  - intros X Y Hsub d. rewrite !elem_of_get_epsilon_closure.
    intros (s & Hs & Hrtc). exists s. split; [by apply Hsub|done].
  - intros X Y. apply set_eq. intros d.
    rewrite elem_of_union, !elem_of_get_epsilon_closure. split.
    + intros (s & [Hs|Hs]%elem_of_union & Hrtc); [left|right]; by exists s.
    + intros [(s & Hs & Hrtc)|(s & Hs & Hrtc)]; exists s;
        (split; [apply elem_of_union; by auto|done]).
Qed.

(** X3: [get_epsilon_closure] returns the set it was given exactly when
    that set is already closed under epsilon moves; in particular when no
    state of the set has epsilon moves. *)
Theorem get_epsilon_closure_fixed_point
    (t : gmap string (gmap string (list string))) (X : gset string) :
  (get_epsilon_closure t X = X
   <-> forall s d, s ∈ X -> d ∈ epsilon_moves t s -> d ∈ X)
  /\ (set_Forall (fun s => epsilon_moves t s = []) X -> get_epsilon_closure t X = X).
Proof.
  assert (Hfix : get_epsilon_closure t X = X
                 <-> forall s d, s ∈ X -> d ∈ epsilon_moves t s -> d ∈ X).
  { rewrite get_epsilon_closure_fixed. split; intros Hclosed s d Hs Hd;
      apply (Hclosed s d Hs); by apply eps_step_moves. }
  split; [exact Hfix|].
  intros Hnone. apply Hfix. intros s d Hs Hd.
  rewrite (Hnone s Hs) in Hd. by apply elem_of_nil in Hd.
Qed.

(** * The loop of simulate without its early return *)

Lemma next_states_empty self symbol : next_states self ∅ symbol = ∅.
Proof. unfold next_states. by rewrite elements_empty. Qed.

Lemma foldl_closure_empty self (input_string : list string) :
  foldl (fun current symbol =>
           get_epsilon_closure (transitions self) (next_states self current symbol))
        ∅ input_string = ∅.
Proof.
  induction input_string as [|symbol rest IH]; simpl; [done|].
  by rewrite next_states_empty, get_epsilon_closure_empty.
Qed.

(** X4: the early [return False] of [simulate] changes no verdict: on an
    input over the alphabet the answer is whether the set obtained by
    moving and closing once per symbol, all the way through the input,
    holds an accept state. *)
Theorem simulate_without_early_return (self : FiniteAutomaton) (input_string : list string) :
  Forall (fun symbol => symbol ∈ alphabet self) input_string ->
  simulate self input_string
  = Return (bool_decide
              (foldl (fun current symbol =>
                        get_epsilon_closure (transitions self)
                          (next_states self current symbol))
                     (get_epsilon_closure (transitions self) {[start_state self]})
                     input_string
               ∩ accept_states self ≠ ∅)).
Proof.
  intros Hall. unfold simulate. rewrite validate_input_string_ok by done. simpl.
  f_equal. generalize (get_epsilon_closure (transitions self) {[start_state self]}).
  clear Hall. induction input_string as [|symbol rest IH]; intros current; simpl; [done|].
  destruct (decide _) as [Hempty|Hne]; [|apply IH].
  rewrite Hempty, foldl_closure_empty. symmetry. apply bool_decide_eq_false.
  intros Hne. apply Hne. set_solver.
Qed.

Lemma simulate_without_early_return_witness :
  let self := set_is_dfa
                (store_attributes ["q0"; "q1"] ["0"; "1"] incomplete_table "q0" {["q1"]})
                false in
  Forall (fun symbol => symbol ∈ alphabet self) ["1"; "0"]
  /\ simulate self ["1"; "0"] = Return false.
Proof.
  intros self.
  assert (Hall : Forall (fun symbol => symbol ∈ alphabet self) ["1"; "0"]).
  { subst self. by_computation. }
  split; [exact Hall|].
  rewrite (simulate_without_early_return self ["1"; "0"] Hall).
  vm_compute. reflexivity.
Defined.

Lemma get_epsilon_closure_fixed_point_witness :
  set_Forall (fun s => epsilon_moves epsilon_table s = []) ({["q1"; "q2"]} : gset string)
  /\ get_epsilon_closure epsilon_table {["q1"; "q2"]} = {["q1"; "q2"]}.
Proof.
  assert (Hnone : set_Forall (fun s => epsilon_moves epsilon_table s = [])
                             ({["q1"; "q2"]} : gset string)).
  { by_computation. }
  split; [exact Hnone|].
  exact (proj2 (get_epsilon_closure_fixed_point epsilon_table {["q1"; "q2"]}) Hnone).
Defined.

(** * What check_if_dfa decides *)

Section Determinism.
Variable self : FiniteAutomaton.

Lemma has_all_symbols_complete state :
  has_all_symbols self state = true
  <-> is_Some (transitions self !! state)
      /\ Forall (fun symbol => is_Some (destinations (transitions self) state symbol))
                (alphabet self).
Proof.
  rewrite has_all_symbols_true, Forall_forall. unfold destinations. split.
  - intros (row & Hrow & Hall). rewrite Hrow. split; [by eexists|]. done.
  - intros [[row Hrow] Hall]. rewrite Hrow in Hall. by exists row.
Qed.

Lemma epsilon_or_multiple_destinations state :
  epsilon_or_multiple self state = false
  <-> destinations (transitions self) state EPSILON = None
      /\ map_Forall (fun _ dests => length dests <= 1)
                    (default ∅ (transitions self !! state)).
Proof.
  rewrite epsilon_or_multiple_false. unfold destinations.
  destruct (transitions self !! state) as [row|]; simpl.
  - split.
    + intros Hrow. destruct (Hrow row eq_refl) as [Heps Hlen]. split; [done|].
      intros symbol dests. apply Hlen.
    + intros [Heps Hlen] ? [= <-]. split; [done|]. intros symbol dests. apply Hlen.
  - split; [|done]. intros _. split; [done|]. intros symbol dests.
    by rewrite lookup_empty.
Qed.

Lemma check_if_dfa_shape :
  check_if_dfa self = true
  <-> no_epsilon_at (transitions self) (states self)
      /\ single_destinations_at (transitions self) (states self)
      /\ complete_at (transitions self) (states self) (alphabet self)
                     (accept_states self).
Proof.
  rewrite check_if_dfa_true.
  unfold no_epsilon_at, single_destinations_at, complete_at.
  rewrite !Forall_forall. split.
  - intros [Hnone Hall]. split_and!.
    + intros state Hstate. by apply epsilon_or_multiple_destinations, Hnone.
    + intros state Hstate. by apply epsilon_or_multiple_destinations, Hnone.
    + intros state Hstate Hacc. by apply has_all_symbols_complete, Hall.
  - intros (Heps & Hsingle & Hcomplete). split.
    + intros state Hstate. apply epsilon_or_multiple_destinations.
      split; [by apply Heps|by apply Hsingle].
    + intros state Hstate Hacc. apply has_all_symbols_complete. by apply Hcomplete.
Qed.
End Determinism.

Lemma destinations_at_most_one t (states0 : list string) state symbol dests :
  single_destinations_at t states0 ->
  state ∈ states0 ->
  destinations t state symbol = Some dests ->
  length dests <= 1.
Proof.
  intros Hsingle Hstate Hsome.
  pose proof (proj1 (Forall_forall _ _) Hsingle state Hstate) as Hrow.
  simpl in Hrow. unfold destinations in Hsome.
  destruct (t !! state) as [row|]; [|done].
  by apply Hrow in Hsome.
Qed.

(** What [__init__] returns, when it returns. *)
Lemma init_returns states0 alphabet0 transitions0 start_state0 accept_states0 self :
  __init__ states0 alphabet0 transitions0 start_state0 accept_states0 = Return self ->
  let attrs := store_attributes states0 alphabet0 transitions0
                 start_state0 accept_states0 in
  self = set_is_dfa attrs (check_if_dfa attrs)
  /\ (check_if_dfa attrs = true -> missing_transitions (set_is_dfa attrs true) = []).
Proof.
  intros Hinit attrs. unfold __init__ in Hinit. fold attrs in Hinit.
  destruct (check_if_dfa attrs) eqn:Hdfa; simpl in Hinit.
  - unfold validate_transitions in Hinit. simpl in Hinit.
    destruct (missing_transitions (set_is_dfa attrs true)) eqn:Hm; simpl in Hinit;
      [|discriminate Hinit].
    injection Hinit as <-. by split.
  - injection Hinit as <-. by split.
Qed.

(** X5: the flag and the label of every automaton that [__init__] returns
    are decided by the rows of the declared states alone.  [is_dfa] is true,
    and the label DFA, exactly when no declared state has an epsilon entry,
    no entry of a declared state has more than one destination, and every
    declared state that is not an accept state has a row with an entry for
    every alphabet symbol; the label is EPSILON_NFA exactly when some
    declared state has an epsilon entry, and NFA in every other case. *)
Theorem automaton_type_of_built
    (states0 alphabet0 : list string)
    (transitions0 : gmap string (gmap string (list string)))
    (start_state0 : string) (accept_states0 : gset string) (self : FiniteAutomaton) :
  __init__ states0 alphabet0 transitions0 start_state0 accept_states0 = Return self ->
  let dfa_shape := no_epsilon_at transitions0 states0
                   /\ single_destinations_at transitions0 states0
                   /\ complete_at transitions0 states0 alphabet0 accept_states0 in
  (is_dfa self = true <-> dfa_shape)
  /\ (automaton_type self = DFA <-> dfa_shape)
  /\ (automaton_type self = EPSILON_NFA <-> has_epsilon_at transitions0 states0)
  /\ (automaton_type self = NFA
      <-> ~ has_epsilon_at transitions0 states0 /\ ~ dfa_shape).
Proof.
  intros Hinit dfa_shape.
  apply init_returns in Hinit as [-> _].
  set (attrs := store_attributes states0 alphabet0 transitions0
                  start_state0 accept_states0).
  assert (Hshape : check_if_dfa attrs = true <-> dfa_shape)
    by apply (check_if_dfa_shape attrs).
  assert (Hexcl : dfa_shape -> ~ has_epsilon_at transitions0 states0).
  { intros (Heps & _) (state & Hin & Hsome)%Exists_exists.
    rewrite (proj1 (Forall_forall _ _) Heps state Hin) in Hsome. by destruct Hsome. }
  destruct (check_if_dfa attrs) eqn:Hdfa.
  - assert (Hs : dfa_shape) by by apply Hshape.
    change (automaton_type (set_is_dfa attrs true)) with DFA.
    split_and!; split; try done; tauto.
  - assert (Hs : ~ dfa_shape) by (intros ?%Hshape; congruence).
    unfold attrs. rewrite automaton_type_not_dfa.
    destruct (decide (has_epsilon_at transitions0 states0)); split_and!; split;
      try done; tauto.
Qed.

Lemma automaton_type_of_built_witness :
  exists self,
    __init__ ["q0"; "q1"] ["0"; "1"] incomplete_table "q0" {["q1"]} = Return self
    /\ (automaton_type self = NFA
        <-> ~ has_epsilon_at incomplete_table ["q0"; "q1"]
            /\ ~ (no_epsilon_at incomplete_table ["q0"; "q1"]
                  /\ single_destinations_at incomplete_table ["q0"; "q1"]
                  /\ complete_at incomplete_table ["q0"; "q1"] ["0"; "1"] {["q1"]})).
Proof.
  eexists. split; [vm_compute; reflexivity|].
  refine (proj2 (proj2 (proj2 (automaton_type_of_built
            ["q0"; "q1"] ["0"; "1"] incomplete_table "q0" {["q1"]} _ _)))).
  vm_compute. reflexivity.
Defined.

(** X6: [__init__] raises only when [check_if_dfa] answered true and some
    declared non-accepting state has, for an alphabet symbol, an entry whose
    list of destinations is empty; the exception is then the
    [TransitionError] of [validate_transitions], and every pair it lists is
    such a pair, reported under the words for several destinations.  No
    pair is ever reported as missing. *)
Theorem init_raises_for_empty_destinations
    (states0 alphabet0 : list string)
    (transitions0 : gmap string (gmap string (list string)))
    (start_state0 : string) (accept_states0 : gset string) :
  let attrs := store_attributes states0 alphabet0 transitions0
                 start_state0 accept_states0 in
  ((exists e, __init__ states0 alphabet0 transitions0 start_state0 accept_states0
              = Raise e)
   <-> check_if_dfa attrs = true
       /\ exists state symbol,
            state ∈ states0 /\ (state ∉ accept_states0) /\ symbol ∈ alphabet0
            /\ destinations transitions0 state symbol = Some [])
  /\ (forall e,
        __init__ states0 alphabet0 transitions0 start_state0 accept_states0 = Raise e ->
        e = TransitionError
              (transition_error_msg (missing_transitions (set_is_dfa attrs true)))
        /\ forall v, v ∈ missing_transitions (set_is_dfa attrs true) ->
             exists state symbol,
               v = NotSingle state symbol
               /\ destinations transitions0 state symbol = Some []).
Proof.
  intros attrs.
  assert (Hlisted : check_if_dfa attrs = true ->
            forall v, v ∈ missing_transitions (set_is_dfa attrs true) ->
            exists state symbol,
              v = NotSingle state symbol
              /\ state ∈ states0 /\ (state ∉ accept_states0) /\ symbol ∈ alphabet0
              /\ destinations transitions0 state symbol = Some []).
  { intros (_ & Hsingle & Hcomplete)%check_if_dfa_shape v Hv.
    apply elem_of_missing_transitions in Hv as (state & Hstate & Hv).
    apply elem_of_state_violations in Hv as (Hacc & symbol & Hsym & Hv).
    simpl in Hstate, Hacc, Hsym, Hv.
    destruct Hv as [[-> Hnone]|(-> & dests & Hsome & Hlen)].
    - exfalso.
      destruct (proj1 (Forall_forall _ _) Hcomplete state Hstate Hacc) as [_ Hall].
      apply (proj1 (Forall_forall _ _) Hall symbol) in Hsym. simpl in Hsym.
      rewrite Hnone in Hsym. by destruct Hsym.
    - exists state, symbol. split_and!; try done.
      pose proof (destinations_at_most_one _ _ _ _ _ Hsingle Hstate Hsome) as Hle.
      destruct dests as [|d [|d' dests]]; simpl in *; [done|done|lia]. }
  assert (Hinit : __init__ states0 alphabet0 transitions0 start_state0 accept_states0
                  = if check_if_dfa attrs
                    then match missing_transitions (set_is_dfa attrs true) with
                         | [] => Return (set_is_dfa attrs true)
                         | missing => Raise (TransitionError (transition_error_msg missing))
                         end
                    else Return (set_is_dfa attrs false)).
  { unfold __init__. fold attrs. destruct (check_if_dfa attrs); simpl; [|done].
    unfold validate_transitions. simpl.
    by destruct (missing_transitions (set_is_dfa attrs true)). }
  rewrite Hinit. split.
  - split.
    + intros [e Hraise]. destruct (check_if_dfa attrs) eqn:Hdfa; [|done].
      split; [done|].
      destruct (missing_transitions (set_is_dfa attrs true)) as [|v l] eqn:Hm; [done|].
      destruct (Hlisted eq_refl v) as (state & symbol & _ & Hrest); [left|].
      by exists state, symbol.
    + intros (Hdfa & state & symbol & Hstate & Hacc & Hsym & Hempty). rewrite Hdfa.
      destruct (missing_transitions (set_is_dfa attrs true)) as [|v l] eqn:Hm;
        [|by eexists].
      exfalso.
      destruct (proj1 (missing_transitions_nil (set_is_dfa attrs true)) Hm
                  state symbol Hstate Hacc Hsym) as [d Hd].
      simpl in Hd. congruence.
  - intros e Hraise. destruct (check_if_dfa attrs) eqn:Hdfa; [|done].
    destruct (missing_transitions (set_is_dfa attrs true)) as [|v l] eqn:Hm; [done|].
    injection Hraise as <-. split; [done|].
    intros v0 Hv0.
    destruct (Hlisted eq_refl v0 Hv0) as (state & symbol & -> & _ & _ & _ & Hempty).
    by exists state, symbol.
Qed.


Lemma init_raises_for_empty_destinations_witness :
  exists e, __init__ ["q0"] ["a"] empty_entry_table "q0" ∅ = Raise e.
Proof.
  apply (proj1 (init_raises_for_empty_destinations
                  ["q0"] ["a"] empty_entry_table "q0" ∅)).
  split; [vm_compute; reflexivity|].
  exists "q0", "a". split_and!; [by_computation|by_computation|by_computation|reflexivity].
Defined.

(** * Runs of a DFA *)

Lemma current_states_after_app self (w v : list string) : forall current,
  current_states_after self current (w ++ v)
  = match current_states_after self current w with
    | Some middle => current_states_after self middle v
    | None => None
    end.
Proof.
  induction w as [|symbol rest IH]; intros current; simpl; [done|].
  destruct (decide _); [done|apply IH].
Qed.

Section DfaRun.
Variables (states0 alphabet0 : list string)
          (transitions0 : gmap string (gmap string (list string)))
          (start_state0 : string) (accept_states0 : gset string).

Let attrs := store_attributes states0 alphabet0 transitions0
               start_state0 accept_states0.

Hypothesis Hdfa : check_if_dfa attrs = true.
Hypothesis Hvalid : missing_transitions (set_is_dfa attrs true) = [].
Hypothesis Hdeclared : destinations_declared transitions0 states0.

Lemma dfa_closure_singleton q :
  q ∈ states0 -> get_epsilon_closure transitions0 {[q]} = {[q]}.
Proof.
  intros Hq. apply get_epsilon_closure_fixed.
  intros s d ->%elem_of_singleton (row & dests & Hrow & Heps & _).
  destruct (proj1 (check_if_dfa_shape attrs) Hdfa) as (Hnone & _).
  pose proof (proj1 (Forall_forall _ _) Hnone q Hq) as Hs. simpl in Hs.
  unfold destinations in Hs. simpl in Hrow. rewrite Hrow in Hs. congruence.
Qed.

Lemma dfa_next_states q symbol :
  next_states (set_is_dfa attrs true) {[q]} symbol
  = list_to_set (default [] (destinations transitions0 q symbol)).
Proof.
  apply set_eq. intros d.
  rewrite (next_states_image (set_is_dfa attrs true) {[q]} symbol d).
  rewrite elem_of_list_to_set. split.
  - intros (s & ->%elem_of_singleton & Hstep).
    apply symbol_step_destinations in Hstep as (dests & Hdests & Hd).
    simpl in Hdests. by rewrite Hdests.
  - intros Hd. exists q. split; [by apply elem_of_singleton|].
    apply symbol_step_destinations. simpl.
    destruct (destinations transitions0 q symbol) as [dests|]; [by exists dests|].
    by apply elem_of_nil in Hd.
Qed.

(** One move of a DFA from a declared state: to a single declared state,
    or to nothing when the state has no destination on the symbol. *)
Lemma dfa_move q symbol :
  q ∈ states0 ->
  let next := get_epsilon_closure transitions0
                (next_states (set_is_dfa attrs true) {[q]} symbol) in
  (next = ∅ /\ default [] (destinations transitions0 q symbol) = [])
  \/ exists d, d ∈ states0 /\ destinations transitions0 q symbol = Some [d]
               /\ next = {[d]}.
Proof.
  intros Hq next. subst next. rewrite dfa_next_states.
  destruct (destinations transitions0 q symbol) as [dests|] eqn:Hdests; simpl.
  - destruct (proj1 (check_if_dfa_shape attrs) Hdfa) as (_ & Hsingle & _).
    pose proof (destinations_at_most_one _ _ _ _ _ Hsingle Hq Hdests) as Hle.
    destruct dests as [|d [|d' dests]]; simpl in Hle; [| |lia].
    + left. split; [|done]. apply get_epsilon_closure_empty.
    + right. exists d.
      assert (Hd : d ∈ states0).
      { pose proof (proj1 (Forall_forall _ _) Hdeclared q Hq) as Hrow.
        simpl in Hrow. unfold destinations in Hdests.
        destruct (transitions0 !! q) as [row|]; [|done].
        apply Hrow in Hdests. simpl in Hdests. by apply Forall_inv in Hdests. }
      split_and!; [done|done|].
      replace (list_to_set [d] : gset string) with ({[d]} : gset string) by set_solver.
      by apply dfa_closure_singleton.
  - left. split; [|done]. apply get_epsilon_closure_empty.
Qed.

Lemma dfa_current_states (w : list string) : forall q final,
  q ∈ states0 ->
  current_states_after (set_is_dfa attrs true) {[q]} w = Some final ->
  exists q', final = {[q']} /\ q' ∈ states0.
Proof.
  induction w as [|symbol rest IH]; intros q final Hq; simpl.
  - intros [= <-]. by exists q.
  - destruct (dfa_move q symbol Hq) as [[-> _]|(d & Hd & _ & ->)].
    + by rewrite decide_True.
    + rewrite decide_False by set_solver. by apply IH.
Qed.

Lemma dfa_dead_end q symbol :
  q ∈ states0 -> symbol ∈ alphabet0 ->
  current_states_after (set_is_dfa attrs true) {[q]} [symbol] = None ->
  q ∈ accept_states0.
Proof.
  intros Hq Hsym. simpl.
  destruct (dfa_move q symbol Hq) as [[-> Hnone]|(d & Hd & _ & ->)].
  - intros _. destruct (decide (q ∈ accept_states0)) as [|Hacc]; [done|].
    destruct (proj1 (missing_transitions_nil (set_is_dfa attrs true)) Hvalid
                q symbol Hq Hacc Hsym) as [d Hd].
    simpl in Hd. by rewrite Hd in Hnone.
  - by rewrite decide_False by set_solver.
Qed.
End DfaRun.

(** X7: in an automaton that [__init__] returned with [is_dfa] true, whose
    start state is declared and whose destinations are all declared states,
    the current set of [simulate] is a single declared state after every
    input that did not end the loop early; and the loop ends early only on
    an alphabet symbol read in an accept state. *)
Theorem dfa_run_is_deterministic
    (states0 alphabet0 : list string)
    (transitions0 : gmap string (gmap string (list string)))
    (start_state0 : string) (accept_states0 : gset string)
    (self : FiniteAutomaton) (input_string : list string) :
  __init__ states0 alphabet0 transitions0 start_state0 accept_states0 = Return self ->
  is_dfa self = true ->
  start_state0 ∈ states0 ->
  destinations_declared transitions0 states0 ->
  let initial := get_epsilon_closure (transitions self) {[start_state self]} in
  (forall final,
      current_states_after self initial input_string = Some final ->
      exists q, final = {[q]} /\ q ∈ states0)
  /\ (forall q symbol,
        symbol ∈ alphabet0 ->
        current_states_after self initial input_string = Some {[q]} ->
        current_states_after self initial (input_string ++ [symbol]) = None ->
        q ∈ accept_states0).
Proof.
  intros Hinit Hflag Hstart Hdeclared.
  apply init_returns in Hinit as [-> Hvalid].
  set (attrs := store_attributes states0 alphabet0 transitions0
                  start_state0 accept_states0) in *.
  assert (Hdfa : check_if_dfa attrs = true) by exact Hflag.
  rewrite Hdfa in *. specialize (Hvalid eq_refl).
  intros initial. subst initial. simpl.
  assert (Hsingle : forall final,
            current_states_after (set_is_dfa attrs true) {[start_state0]} input_string
            = Some final ->
            exists q, final = {[q]} /\ q ∈ states0).
  { intros final Hafter. eapply dfa_current_states; eauto. }
  erewrite dfa_closure_singleton by eauto.
  split; [exact Hsingle|].
  intros q symbol Hsym Hafter. rewrite current_states_after_app, Hafter.
  destruct (Hsingle _ Hafter) as (q' & Hq' & Hin).
  apply (inj singleton) in Hq' as ->. eapply dfa_dead_end; eauto.
Qed.

Lemma dfa_run_is_deterministic_witness :
  exists self,
    __init__ ["q0"; "q1"] ["0"; "1"] two_state_table "q0" {["q1"]} = Return self
    /\ is_dfa self = true
    /\ "q0" ∈ ["q0"; "q1"]
    /\ destinations_declared two_state_table ["q0"; "q1"]
    /\ forall final,
         current_states_after self
           (get_epsilon_closure (transitions self) {[start_state self]}) ["0"; "1"]
         = Some final ->
         exists q, final = {[q]} /\ q ∈ ["q0"; "q1"].
Proof.
  set (self := set_is_dfa
                 (store_attributes ["q0"; "q1"] ["0"; "1"] two_state_table "q0" {["q1"]})
                 true).
  assert (Hinit : __init__ ["q0"; "q1"] ["0"; "1"] two_state_table "q0" {["q1"]}
                  = Return self) by (vm_compute; reflexivity).
  assert (Hdecl : destinations_declared two_state_table ["q0"; "q1"]).
  { unfold destinations_declared. by_computation. }
  assert (Hstart : "q0" ∈ ["q0"; "q1"]) by by_computation.
  exists self. split_and!; [exact Hinit|reflexivity|exact Hstart|exact Hdecl|].
  exact (proj1 (dfa_run_is_deterministic
                  ["q0"; "q1"] ["0"; "1"] two_state_table "q0" {["q1"]}
                  self ["0"; "1"] Hinit eq_refl Hstart Hdecl)).
Defined.


(** * The form *)

Lemma validate_basic_inputs_returns states0 alphabet0 start_state0
    (accept_states0 : gset string) checked :
  validate_basic_inputs states0 alphabet0 start_state0 accept_states0 = Return checked ->
  checked = (states0, alphabet0, start_state0, accept_states0)
  /\ states0 ≠ [] /\ alphabet0 ≠ [] /\ start_state0 ≠ ""
  /\ start_state0 ∈ states0 /\ accept_states0 ≠ ∅
  /\ (forall q, q ∈ accept_states0 -> q ∈ states0).
Proof.
  unfold validate_basic_inputs.
  destruct (decide (states0 = [])); [done|].
  destruct (decide (alphabet0 = [])); [done|].
  destruct (decide (start_state0 = "")); [done|].
  destruct (decide (start_state0 ∉ states0)) as [|Hin%dec_stable]; [done|].
  destruct (decide (accept_states0 = ∅)); [done|].
  destruct (decide (accept_states0 ∖ list_to_set states0 ≠ ∅)) as [|Hinv%dec_stable];
    [done|].
  intros [= <-]. split_and!; try done.
  intros q Hq. destruct (decide (q ∈ states0)) as [|Hnot]; [done|]. exfalso.
  assert (Hdiff : q ∈ accept_states0 ∖ list_to_set states0).
  { apply elem_of_difference. by rewrite elem_of_list_to_set. }
  rewrite Hinv in Hdiff. by apply elem_of_empty in Hdiff.
Qed.

Lemma validate_basic_inputs_raises states0 alphabet0 start_state0
    (accept_states0 : gset string) e :
  validate_basic_inputs states0 alphabet0 start_state0 accept_states0 = Raise e ->
  exists msg, e = ValueError msg.
Proof.
  unfold validate_basic_inputs.
  repeat (case_decide; [intros [= <-]; by eexists|]). done.
Qed.

(** X8: [validate_basic_inputs] returns its four arguments unchanged exactly
    when the states and the alphabet are not empty, the start state is a
    non-empty name among the states, and the accept states are a non-empty
    set of declared states; in every other case it raises [ValueError]. *)
Theorem validate_basic_inputs_accepts
    (states0 alphabet0 : list string) (start_state0 : string)
    (accept_states0 : gset string) :
  (validate_basic_inputs states0 alphabet0 start_state0 accept_states0
   = Return (states0, alphabet0, start_state0, accept_states0)
   <-> states0 ≠ [] /\ alphabet0 ≠ [] /\ start_state0 ≠ ""
       /\ start_state0 ∈ states0 /\ accept_states0 ≠ ∅
       /\ (forall q, q ∈ accept_states0 -> q ∈ states0))
  /\ (forall checked,
        validate_basic_inputs states0 alphabet0 start_state0 accept_states0
        = Return checked ->
        checked = (states0, alphabet0, start_state0, accept_states0))
  /\ (forall e,
        validate_basic_inputs states0 alphabet0 start_state0 accept_states0
        = Raise e ->
        exists msg, e = ValueError msg).
Proof.
  split_and!.
  - split; [by intros [_ ?]%validate_basic_inputs_returns|].
    intros (Hs & Ha & He & Hin & Hacc & Hsub).
    destruct (validate_basic_inputs states0 alphabet0 start_state0 accept_states0)
      as [checked|e] eqn:Hbasic.
    + by apply validate_basic_inputs_returns in Hbasic as [-> _].
    + exfalso. revert Hbasic. unfold validate_basic_inputs.
      rewrite !decide_False by (done || by intros ?).
      rewrite decide_False; [done|]. intros Hinv. apply Hinv.
      apply set_eq. intros q. rewrite elem_of_difference, elem_of_list_to_set.
      split; [|by intros ?%elem_of_empty]. intros [Hq Hnot]. exfalso. by apply Hnot, Hsub.
  - by intros checked [-> _]%validate_basic_inputs_returns.
  - intros e. apply validate_basic_inputs_raises.
Qed.

Section ParsingFacts.
Variables (strip lower : string -> string).

(** What a line that is recorded has passed. *)
Lemma read_line_some state_set alphabet_set line_num line state symbol next_state :
  read_line strip lower state_set alphabet_set line_num line
  = Return (Some (state, symbol, next_state)) ->
  state ∈ state_set /\ next_state ∈ state_set
  /\ (symbol ∉ ["eps"; "epsilon"])
  /\ (symbol = EPSILON \/ (symbol ∈ alphabet_set /\ exists raw, symbol = lower raw)).
Proof.
  unfold read_line. destruct (decide (strip line = "")); [done|].
  destruct (str_split "->" line) as [|part0 [|part1 [|]]]; try done.
  destruct (str_split "," (strip part0)) as [|state0 [|symbol0 [|]]]; try done.
  destruct (decide (strip state0 ∉ state_set)) as [|Hstate%dec_stable]; [done|].
  destruct (decide (lower (strip symbol0) ∉ _)) as [|Hsym%dec_stable]; [done|].
  destruct (decide (strip (strip part1) ∉ state_set)) as [|Hnext%dec_stable]; [done|].
  intros [= <- <- <-]. split_and!; [done|done| |].
  - destruct (decide (lower (strip symbol0) ∈ ["eps"; "epsilon"])); [|done].
    by_computation.
  - destruct (decide (lower (strip symbol0) ∈ ["eps"; "epsilon"])) as [|Hplain];
      [by left|].
    apply elem_of_union in Hsym as [Hsym|Hsym]; [right; split; [done|by eexists]|].
    destruct (decide (lower (strip symbol0) = EPSILON)) as [|Hne]; [by left|].
    exfalso. apply Hplain. set_solver.
Qed.

Lemma read_line_raises state_set alphabet_set line_num line e :
  read_line strip lower state_set alphabet_set line_num line = Raise e ->
  exists msg, e = ValueError msg.
Proof.
  unfold read_line. destruct (decide (strip line = "")); [done|].
  destruct (str_split "->" line) as [|part0 [|part1 [|]]];
    try (intros [= <-]; by eexists).
  destruct (str_split "," (strip part0)) as [|state0 [|symbol0 [|]]];
    try (intros [= <-]; by eexists).
  repeat (case_decide; [intros [= <-]; by eexists|]). done.
Qed.

Lemma destinations_add_transition transitions0 state0 symbol0 next_state state symbol :
  destinations (add_transition transitions0 state0 symbol0 next_state) state symbol
  = if decide ((state0, symbol0) = (state, symbol))
    then Some (default [] (destinations transitions0 state symbol) ++ [next_state])
    else destinations transitions0 state symbol.
Proof.
  unfold add_transition, destinations.
  destruct (decide (state0 = state)) as [->|Hstate].
  - rewrite lookup_insert_eq.
    destruct (decide (symbol0 = symbol)) as [->|Hsymbol].
    + rewrite lookup_insert_eq, decide_True by done.
      by destruct (transitions0 !! state).
    + rewrite lookup_insert_ne, decide_False by congruence.
      destruct (transitions0 !! state); [done|]. simpl. by rewrite lookup_empty.
  - rewrite lookup_insert_ne, decide_False by congruence. done.
Qed.

Lemma extended_app old new1 new2 :
  extended (extended old new1) new2 = extended old (new1 ++ new2).
Proof.
  destruct new1 as [|x new1]; [done|].
  destruct new2 as [|y new2]; simpl; [by rewrite app_nil_r|].
  by rewrite <- app_assoc.
Qed.

Lemma destinations_record_line transitions0 read state symbol :
  destinations (record_line transitions0 read) state symbol
  = extended (destinations transitions0 state symbol)
      (recorded_for state symbol (from_option (fun x => [x]) [] read)).
Proof.
  destruct read as [[[state0 symbol0] next_state]|]; [|done].
  simpl. rewrite destinations_add_transition. unfold recorded_for.
  rewrite filter_cons, filter_nil. simpl.
  destruct (decide ((state0, symbol0) = (state, symbol))); done.
Qed.

Lemma recorded_for_app state symbol l1 l2 :
  recorded_for state symbol (l1 ++ l2)
  = recorded_for state symbol l1 ++ recorded_for state symbol l2.
Proof. unfold recorded_for. by rewrite filter_app, map_app. Qed.

(** The loop appends, to the list of each pair, the right-hand sides that
    the remaining lines record for it, in the order of the lines. *)
Lemma parse_lines_destinations state_set alphabet_set lines :
  forall line_num transitions0 transitions1,
    parse_lines strip lower state_set alphabet_set line_num lines transitions0
    = Return transitions1 ->
    forall state symbol,
      destinations transitions1 state symbol
      = extended (destinations transitions0 state symbol)
          (recorded_for state symbol
             (recorded strip lower state_set alphabet_set line_num lines)).
Proof.
  induction lines as [|line rest IH]; intros line_num transitions0 transitions1; simpl.
  - by intros [= <-].
  - destruct (read_line strip lower state_set alphabet_set line_num line)
      as [read|e]; simpl; [|done].
    intros Hrest state symbol. rewrite (IH _ _ _ Hrest), destinations_record_line.
    rewrite extended_app, <- recorded_for_app. by destruct read.
Qed.

Lemma parse_lines_raises state_set alphabet_set lines :
  forall line_num transitions0 e,
    parse_lines strip lower state_set alphabet_set line_num lines transitions0
    = Raise e ->
    exists msg, e = ValueError msg.
Proof.
  induction lines as [|line rest IH]; intros line_num transitions0 e; simpl; [done|].
  destruct (read_line strip lower state_set alphabet_set line_num line)
    as [read|e0] eqn:Hread; simpl.
  - apply IH.
  - intros [= <-]. by eapply read_line_raises.
Qed.

Lemma parse_lines_rows state_set alphabet_set lines :
  forall line_num transitions0 transitions1,
    rows_not_empty transitions0 ->
    parse_lines strip lower state_set alphabet_set line_num lines transitions0
    = Return transitions1 ->
    rows_not_empty transitions1.
Proof.
  induction lines as [|line rest IH]; intros line_num transitions0 transitions1 Hrows;
    simpl.
  - by intros [= <-].
  - destruct (read_line strip lower state_set alphabet_set line_num line)
      as [read|e]; simpl; [|done].
    apply IH. destruct read as [[[state0 symbol0] next_state]|]; [|done].
    intros state row. simpl. unfold add_transition.
    destruct (decide (state0 = state)) as [->|Hne].
    + rewrite lookup_insert_eq. intros [= <-]. apply insert_non_empty.
    + rewrite lookup_insert_ne by done. apply Hrows.
Qed.

Lemma recorded_checked state_set alphabet_set lines : forall line_num,
  Forall (fun x =>
            x.1.1 ∈ state_set /\ x.2 ∈ state_set
            /\ (x.1.2 ∉ ["eps"; "epsilon"])
            /\ (x.1.2 = EPSILON
                \/ (x.1.2 ∈ alphabet_set /\ exists raw, x.1.2 = lower raw)))
         (recorded strip lower state_set alphabet_set line_num lines).
Proof.
  induction lines as [|line rest IH]; intros line_num; simpl; [constructor|].
  apply Forall_app. split; [|apply IH].
  destruct (read_line strip lower state_set alphabet_set line_num line)
    as [[[[state symbol] next_state]|]|e] eqn:Hread; try constructor; [|constructor].
  by apply read_line_some in Hread.
Qed.

Lemma elem_of_recorded_for state symbol l d :
  d ∈ recorded_for state symbol l <-> (state, symbol, d) ∈ l.
Proof.
  unfold recorded_for. rewrite list_elem_of_In, in_map_iff. split.
  - intros ([[state0 symbol0] d0] & <- & Hin%list_elem_of_In%list_elem_of_filter).
    destruct Hin as [[= -> ->] Hin]. done.
  - intros Hin. exists (state, symbol, d). split; [done|].
    apply list_elem_of_In, list_elem_of_filter. done.
Qed.
End ParsingFacts.

(** X9: when [parse_transitions] returns, the table holds, for every pair
    (state, symbol), the right-hand sides of the lines recorded for that
    pair, in the order of the lines and with their repetitions; a pair for
    which no line is recorded has no entry. *)
Theorem parse_transitions_content (strip lower : string -> string)
    (states_entry alphabet_entry text : string)
    (transitions1 : gmap string (gmap string (list string))) :
  parse_transitions strip lower states_entry alphabet_entry text = Return transitions1 ->
  forall state symbol,
    let lines := recorded strip lower (entry_set strip states_entry)
                   (entry_set strip alphabet_entry) 1 (str_split nl (strip text)) in
    destinations transitions1 state symbol
    = match recorded_for state symbol lines with
      | [] => None
      | dests => Some dests
      end.
Proof.
  intros Hparse state symbol lines.
  rewrite (parse_lines_destinations _ _ _ _ _ _ _ _ Hparse state symbol).
  fold lines. unfold destinations. rewrite lookup_empty.
  by destruct (recorded_for state symbol lines).
Qed.

Lemma parse_transitions_content_witness :
  let strip := fun s : string => s in
  let text := "q0,a->q1" +:+ nl +:+ "q0,eps->q0" +:+ nl +:+ "q0,a->q0" in
  let table : gmap string (gmap string (list string)) :=
    {[ "q0" := <["a" := ["q1"; "q0"]]> {[ EPSILON := ["q0"] ]} ]} in
  parse_transitions strip strip "q0,q1" "a" text = Return table
  /\ destinations table "q0" "a" = Some ["q1"; "q0"].
Proof.
  intros strip text table.
  assert (Hparse : parse_transitions strip strip "q0,q1" "a" text = Return table)
    by (vm_compute; reflexivity).
  split; [exact Hparse|].
  rewrite (parse_transitions_content strip strip "q0,q1" "a" text table Hparse "q0" "a").
  vm_compute. reflexivity.
Defined.

(** What the entries of a returned table have passed. *)
Lemma parse_transitions_entries (strip lower : string -> string)
    (states_entry alphabet_entry text : string)
    (transitions1 : gmap string (gmap string (list string))) state symbol dests :
  parse_transitions strip lower states_entry alphabet_entry text = Return transitions1 ->
  destinations transitions1 state symbol = Some dests ->
  state ∈ entry_set strip states_entry
  /\ dests ≠ []
  /\ Forall (fun d => d ∈ entry_set strip states_entry) dests
  /\ (symbol ∉ ["eps"; "epsilon"])
  /\ (symbol = EPSILON
      \/ (symbol ∈ entry_set strip alphabet_entry /\ exists raw, symbol = lower raw)).
Proof.
  intros Hparse.
  set (lines := recorded strip lower (entry_set strip states_entry)
                  (entry_set strip alphabet_entry) 1 (str_split nl (strip text))).
  rewrite (parse_lines_destinations _ _ _ _ _ _ _ _ Hparse state symbol).
  fold lines. unfold destinations at 1. rewrite lookup_empty. simpl.
  destruct (recorded_for state symbol lines) as [|d0 l] eqn:Hfor; [done|].
  intros [= <-].
  assert (Hchecked : forall d, d ∈ d0 :: l ->
            state ∈ entry_set strip states_entry
            /\ d ∈ entry_set strip states_entry
            /\ (symbol ∉ ["eps"; "epsilon"])
            /\ (symbol = EPSILON
                \/ (symbol ∈ entry_set strip alphabet_entry
                    /\ exists raw, symbol = lower raw))).
  { intros d Hd. rewrite <- Hfor in Hd. apply elem_of_recorded_for in Hd.
    pose proof (recorded_checked strip lower (entry_set strip states_entry)
                  (entry_set strip alphabet_entry) (str_split nl (strip text)) 1)
      as Hall.
    apply (proj1 (Forall_forall _ _) Hall (state, symbol, d) Hd). }
  destruct (Hchecked d0) as (Hstate & _ & Hplain & Hsym); [by left|].
  split_and!; try done.
  apply Forall_forall. intros d Hd. by destruct (Hchecked d Hd) as (_ & ? & _).
Qed.

(** X10: every table that [parse_transitions] returns is well formed: its
    rows belong to names of the states entry and are not empty; every list
    of destinations is non-empty and holds names of the states entry; no
    entry is filed under 'eps' or 'epsilon'; and every symbol other than
    'ε' is a name of the alphabet entry and a value of [lower]. *)
Theorem parse_transitions_well_formed (strip lower : string -> string)
    (states_entry alphabet_entry text : string)
    (transitions1 : gmap string (gmap string (list string))) :
  parse_transitions strip lower states_entry alphabet_entry text = Return transitions1 ->
  (forall state row,
      transitions1 !! state = Some row ->
      state ∈ entry_set strip states_entry /\ row ≠ ∅)
  /\ (forall state symbol dests,
        destinations transitions1 state symbol = Some dests ->
        state ∈ entry_set strip states_entry
        /\ dests ≠ []
        /\ Forall (fun d => d ∈ entry_set strip states_entry) dests
        /\ (symbol ∉ ["eps"; "epsilon"])
        /\ (symbol = EPSILON
            \/ (symbol ∈ entry_set strip alphabet_entry
                /\ exists raw, symbol = lower raw))).
Proof.
  intros Hparse. split.
  - intros state row Hrow.
    assert (Hne : row ≠ ∅).
    { eapply (parse_lines_rows strip lower); [|exact Hparse|exact Hrow].
      intros ? ?. by rewrite lookup_empty. }
    split; [|done].
    apply map_choose in Hne as (symbol & dests & Hdests).
    assert (Hsome : destinations transitions1 state symbol = Some dests)
      by (unfold destinations; by rewrite Hrow).
    by destruct (parse_transitions_entries _ _ _ _ _ _ _ _ _ Hparse Hsome) as [? _].
  - intros state symbol dests.
    apply (parse_transitions_entries _ _ _ _ _ _ _ _ _ Hparse).
Qed.

Lemma parse_transitions_well_formed_witness :
  let strip := fun s : string => s in
  let table : gmap string (gmap string (list string)) :=
    {[ "q0" := {[ EPSILON := ["q1"] ]} ]} in
  parse_transitions strip strip "q0,q1" "a" "q0,epsilon->q1" = Return table
  /\ forall state row,
       table !! state = Some row -> state ∈ entry_set strip "q0,q1" /\ row ≠ ∅.
Proof.
  intros strip table.
  assert (Hparse : parse_transitions strip strip "q0,q1" "a" "q0,epsilon->q1"
                   = Return table) by (vm_compute; reflexivity).
  split; [exact Hparse|].
  exact (proj1 (parse_transitions_well_formed strip strip "q0,q1" "a"
                  "q0,epsilon->q1" table Hparse)).
Defined.

(** [__init__] returns on every table without an empty list of
    destinations. *)
Lemma init_returns_without_empty_lists states0 alphabet0 transitions0
    start_state0 accept_states0 :
  (forall state symbol dests,
      destinations transitions0 state symbol = Some dests -> dests ≠ []) ->
  exists self,
    __init__ states0 alphabet0 transitions0 start_state0 accept_states0 = Return self.
Proof.
  intros Hnonempty. unfold __init__.
  set (attrs := store_attributes states0 alphabet0 transitions0
                  start_state0 accept_states0).
  destruct (check_if_dfa attrs) eqn:Hdfa; simpl; [|by eexists].
  apply check_if_dfa_shape in Hdfa as (_ & Hsingle & Hcomplete).
  unfold validate_transitions. simpl.
  rewrite (proj2 (missing_transitions_nil (set_is_dfa attrs true))); [by eexists|].
  intros state symbol Hstate Hacc Hsym. simpl in *.
  destruct (proj1 (Forall_forall _ _) Hcomplete state Hstate Hacc) as [_ Hall].
  destruct (proj1 (Forall_forall _ _) Hall symbol Hsym) as [dests Hdests].
  pose proof (destinations_at_most_one _ _ _ _ _ Hsingle Hstate Hdests) as Hle.
  pose proof (Hnonempty _ _ _ Hdests) as Hne.
  destruct dests as [|d [|d' dests]]; simpl in Hle; [done|by exists d|lia].
Qed.

Section FormFacts.
Variables (strip lower : string -> string).

Lemma elem_of_entry_list entry x :
  x ∈ entry_list strip entry <-> x ∈ entry_set strip entry /\ x ≠ "".
Proof.
  unfold entry_list, entry_set.
  rewrite list_elem_of_filter, elem_of_list_to_set. tauto.
Qed.
End FormFacts.

(** X11: the automaton that the form builds.  Reading the five entries
    fails with [ValueError] only: no [TransitionError] ever comes out of the
    form.  When an automaton is built, its states and alphabet are not
    empty and hold no empty name, its start state and its non-empty set of
    accept states are declared states, every list of destinations is
    non-empty, and the only name that a transition may use without its
    being a declared state is the empty one. *)
Theorem build_from_entries_builds (strip lower : string -> string)
    (states_entry alphabet_entry start_state_entry accept_states_entry text : string) :
  let built := build_from_entries strip lower states_entry alphabet_entry
                 start_state_entry accept_states_entry text in
  (forall e, built = Raise e -> exists msg, e = ValueError msg)
  /\ (forall self,
        built = Return self ->
        states self = entry_list strip states_entry
        /\ states self ≠ [] /\ alphabet self ≠ []
        /\ Forall (fun q => q ≠ "") (states self)
        /\ Forall (fun a => a ≠ "") (alphabet self)
        /\ start_state self ∈ states self
        /\ accept_states self ≠ ∅
        /\ (forall q, q ∈ accept_states self -> q ∈ states self)
        /\ (forall state symbol dests,
              destinations (transitions self) state symbol = Some dests ->
              dests ≠ []
              /\ (state ∈ states self \/ state = "")
              /\ Forall (fun d => d ∈ states self \/ d = "") dests)).
Proof.
  intros built. subst built. unfold build_from_entries, validate_basic_entries.
  set (states1 := entry_list strip states_entry).
  set (alphabet1 := entry_list strip alphabet_entry).
  set (accept1 := list_to_set (entry_list strip accept_states_entry) : gset string).
  destruct (validate_basic_inputs states1 alphabet1 (strip start_state_entry) accept1)
    as [checked|e0] eqn:Hbasic; simpl.
  2:{ split; [|done]. intros e [= <-]. by eapply validate_basic_inputs_raises. }
  apply validate_basic_inputs_returns
    in Hbasic as (-> & Hs & Ha & _ & Hstart & Hacc & Hsub).
  destruct (parse_transitions strip lower states_entry alphabet_entry text)
    as [transitions1|e1] eqn:Hparse; simpl.
  2:{ split; [|done]. intros e [= <-]. by eapply parse_lines_raises. }
  pose proof (fun state symbol dests =>
                parse_transitions_entries strip lower _ _ _ _ state symbol dests Hparse)
    as Hentries.
  destruct (init_returns_without_empty_lists states1 alphabet1 transitions1
              (strip start_state_entry) accept1) as [self Hinit].
  { intros state symbol dests Hsome. by destruct (Hentries _ _ _ Hsome) as (_ & ? & _). }
  rewrite Hinit. split; [done|].
  intros ? [= <-]. apply init_returns in Hinit as [-> _]. simpl.
  assert (Hname : forall x, x ∈ entry_set strip states_entry -> x ∈ states1 \/ x = "").
  { intros x Hx. destruct (decide (x = "")); [by right|]. left.
    by apply elem_of_entry_list. }
  split_and!; try done.
  - apply Forall_forall. intros q Hq. by apply elem_of_entry_list in Hq as [_ ?].
  - apply Forall_forall. intros a Hin. by apply elem_of_entry_list in Hin as [_ ?].
  - intros state symbol dests Hsome.
    destruct (Hentries _ _ _ Hsome) as (Hstate & Hne & Hdests & _).
    split_and!; [done|by apply Hname|].
    eapply Forall_impl; [exact Hdests|]. intros d. apply Hname.
Qed.

Lemma build_from_entries_builds_witness :
  let strip := fun s : string => s in
  exists self,
    build_from_entries strip strip "q0,q1" "a" "q0" "q1" "q0,a->q1" = Return self
    /\ start_state self ∈ states self.
Proof.
  intros strip.
  set (self := set_is_dfa
                 (store_attributes ["q0"; "q1"] ["a"] {[ "q0" := {[ "a" := ["q1"] ]} ]}
                    "q0" {["q1"]})
                 true).
  assert (Hbuilt : build_from_entries strip strip "q0,q1" "a" "q0" "q1" "q0,a->q1"
                   = Return self) by (vm_compute; reflexivity).
  exists self. split; [exact Hbuilt|].
  destruct (proj2 (build_from_entries_builds strip strip "q0,q1" "a" "q0" "q1"
                     "q0,a->q1") self Hbuilt) as (_ & _ & _ & _ & _ & Hstart & _).
  exact Hstart.
Defined.

Lemma parse_lines_first_error (strip lower : string -> string)
    (state_set alphabet_set : gset string) (before : list string) :
  forall line_num line after transitions0 e,
    (forall i l, before !! i = Some l ->
       exists read,
         read_line strip lower state_set alphabet_set (line_num + i) l = Return read) ->
    read_line strip lower state_set alphabet_set (line_num + length before) line
    = Raise e ->
    parse_lines strip lower state_set alphabet_set line_num
      (before ++ line :: after) transitions0
    = Raise e.
Proof.
  induction before as [|l0 before IH]; intros line_num line after transitions0 e
    Hbefore Hline; simpl in *.
  - rewrite Nat.add_0_r in Hline. by rewrite Hline.
  - destruct (Hbefore 0 l0 eq_refl) as [read Hread].
    rewrite Nat.add_0_r in Hread. rewrite Hread. simpl.
    apply IH.
    + intros i l Hl. destruct (Hbefore (S i) l Hl) as [read' Hread'].
      exists read'. by replace (S line_num + i) with (line_num + S i) by lia.
    + by replace (S line_num + length before) with (line_num + S (length before))
        by lia.
Qed.

(** Every exception of the loop body is a [ValueError] whose text opens
    with what is wrong and the number of the line. *)
Lemma read_line_raises_numbered (strip lower : string -> string)
    (state_set alphabet_set : gset string) (line_num : nat) (line : string)
    (e : exception) :
  read_line strip lower state_set alphabet_set line_num line = Raise e ->
  exists what rest,
    what ∈ ["transition format"; "state"; "symbol"; "next state"]
    /\ e = ValueError ("Invalid " +:+ what +:+ " at line " +:+ pretty line_num
                       +:+ ": " +:+ rest).
Proof.
  unfold read_line. destruct (decide (strip line = "")); [done|].
  assert (Hformat : forall hint,
    exists what rest,
      what ∈ ["transition format"; "state"; "symbol"; "next state"]
      /\ ValueError (format_error line_num line hint)
         = ValueError ("Invalid " +:+ what +:+ " at line " +:+ pretty line_num
                       +:+ ": " +:+ rest)).
  { intros hint. exists "transition format", (line +:+ nl +:+ hint).
    split; [by left|reflexivity]. }
  assert (Hname : forall what name expected,
    what ∈ ["transition format"; "state"; "symbol"; "next state"] ->
    exists what' rest,
      what' ∈ ["transition format"; "state"; "symbol"; "next state"]
      /\ ValueError (name_error what line_num name expected)
         = ValueError ("Invalid " +:+ what' +:+ " at line " +:+ pretty line_num
                       +:+ ": " +:+ rest)).
  { intros what name expected Hwhat.
    exists what, ("'" +:+ name +:+ "'" +:+ nl +:+ expected).
    split; [done|reflexivity]. }
  destruct (str_split "->" line) as [|part0 [|part1 [|]]];
    try (intros [= <-]; by apply Hformat).
  destruct (str_split "," (strip part0)) as [|state0 [|symbol0 [|]]];
    try (intros [= <-]; by apply Hformat).
  destruct (decide (_ ∉ state_set));
    [intros [= <-]; apply Hname; by right; left|].
  destruct (decide (_ ∉ _));
    [intros [= <-]; apply Hname; by right; right; left|].
  destruct (decide (_ ∉ state_set));
    [intros [= <-]; apply Hname; by right; right; right; left|].
  done.
Qed.

(** X13: [parse_transitions] stops at the first line that cannot be read:
    when the lines before it are blank or well formed, the exception raised
    is the [ValueError] of that line, whatever follows it, and its text
    carries the position of the line, counted from 1, in the list
    [text.strip().split(newline)]: the lines of the text once [strip] has
    cut its two ends, the blank ones among them counted too. *)
Theorem parse_transitions_first_error (strip lower : string -> string)
    (states_entry alphabet_entry text : string)
    (before : list string) (line : string) (after : list string) (e : exception) :
  str_split nl (strip text) = before ++ line :: after ->
  (forall i l, before !! i = Some l ->
     exists read,
       read_line strip lower (entry_set strip states_entry)
         (entry_set strip alphabet_entry) (1 + i) l = Return read) ->
  read_line strip lower (entry_set strip states_entry)
    (entry_set strip alphabet_entry) (1 + length before) line = Raise e ->
  parse_transitions strip lower states_entry alphabet_entry text = Raise e
  /\ (exists msg, e = ValueError msg)
  /\ exists what rest,
       what ∈ ["transition format"; "state"; "symbol"; "next state"]
       /\ e = ValueError ("Invalid " +:+ what +:+ " at line "
                          +:+ pretty (1 + length before) +:+ ": " +:+ rest).
Proof.
  intros Hlines Hbefore Hline. split_and!.
  - unfold parse_transitions. rewrite Hlines.
    by apply parse_lines_first_error.
  - by eapply read_line_raises.
  - by eapply read_line_raises_numbered.
Qed.

Lemma parse_transitions_first_error_witness :
  let strip := fun s : string => s in
  let text := "q0,a->q1" +:+ nl +:+ nl +:+ "q0,c->q0" +:+ nl +:+ "q0->" in
  exists e,
    read_line strip strip (entry_set strip "q0,q1") (entry_set strip "a") 3 "q0,c->q0"
    = Raise e
    /\ parse_transitions strip strip "q0,q1" "a" text = Raise e
    /\ e = ValueError ("Invalid symbol at line 3: 'c'" +:+ nl +:+
                       "Symbol must be one of: a (or 'eps'/'epsilon' for ε-transitions)").
Proof.
  intros strip text. eexists. split; [vm_compute; reflexivity|].
  split; [|vm_compute; reflexivity].
  apply (parse_transitions_first_error strip strip "q0,q1" "a" text
           ["q0,a->q1"; ""] "q0,c->q0" ["q0->"]).
  - vm_compute. reflexivity.
  - intros [|[|i]] l; simpl; [| |by rewrite lookup_nil];
      intros [= <-]; eexists; vm_compute; reflexivity.
  - vm_compute. reflexivity.
Defined.

(** * The diagram *)

Lemma occurrences_nil {A} `{EqDecision A} (x : A) : occurrences x [] = 0.
Proof. reflexivity. Qed.

Lemma occurrences_cons {A} `{EqDecision A} (x y : A) (l : list A) :
  occurrences x (y :: l) = (if decide (y = x) then 1 else 0) + occurrences x l.
Proof.
  unfold occurrences. rewrite filter_cons. by destruct (decide (y = x)).
Qed.

Lemma occurrences_app {A} `{EqDecision A} (x : A) (l1 l2 : list A) :
  occurrences x (l1 ++ l2) = occurrences x l1 + occurrences x l2.
Proof.
  unfold occurrences. by rewrite filter_app, length_app.
Qed.

Lemma occurrences_not_elem_of {A} `{EqDecision A} (x : A) (l : list A) :
  x ∉ l -> occurrences x l = 0.
Proof.
  induction l as [|y l IH]; [done|]. rewrite not_elem_of_cons. intros [Hne Hl].
  rewrite occurrences_cons, decide_False by done. by rewrite IH.
Qed.

(** Every table is listed by some walk. *)
Lemma lists_table_exists (t : gmap string (gmap string (list string))) :
  exists items, lists_table items t.
Proof.
  exists ((fun row => (row.1, map_to_list row.2)) <$> map_to_list t).
  split_and!.
  - rewrite <- list_fmap_compose. apply NoDup_fst_map_to_list.
  - apply Forall_fmap, Forall_forall. intros [state edges] _. simpl.
    apply NoDup_fst_map_to_list.
  - rewrite <- list_fmap_compose.
    rewrite (list_fmap_ext _ id (map_to_list t)).
    + by rewrite list_fmap_id, list_to_map_to_list.
    + intros i [state edges] _. simpl. by rewrite list_to_map_to_list.
Qed.

Lemma elem_of_row_edges state edges call :
  call ∈ row_edges state edges ->
  exists symbol d, call = dot_edge state d (Some symbol).
Proof.
  unfold row_edges. rewrite list_elem_of_In, in_flat_map.
  intros ([symbol dests] & _ & Hcall).
  apply in_map_iff in Hcall as (d & <- & _). by exists symbol, d.
Qed.

Lemma elem_of_table_edges (items : list (string * list (string * list string))) call :
  call ∈ flat_map (fun row => row_edges row.1 row.2) items ->
  exists state symbol d, call = dot_edge state d (Some symbol).
Proof.
  rewrite list_elem_of_In, in_flat_map.
  intros ([state edges] & _ & Hcall%list_elem_of_In%elem_of_row_edges).
  destruct Hcall as (symbol & d & ->). by exists state, symbol, d.
Qed.

(** The innermost loop draws one edge for each occurrence of the
    destination. *)
Lemma occurrences_entry_edges state0 symbol0 (dests : list string) state symbol d :
  occurrences (dot_edge state d (Some symbol))
    (map (fun next_state => dot_edge state0 next_state (Some symbol0)) dests)
  = if decide (state0 = state /\ symbol0 = symbol) then occurrences d dests else 0.
Proof.
  induction dests as [|d0 dests IH]; simpl.
  - by destruct (decide _).
  - rewrite !occurrences_cons, IH.
    destruct (decide (state0 = state /\ symbol0 = symbol)) as [[-> ->]|Hne].
    + destruct (decide (d0 = d)) as [->|Hd].
      * by rewrite decide_True.
      * rewrite decide_False; [done|]. by intros [= ->].
    + rewrite decide_False; [done|]. intros [= -> -> ->]. by apply Hne.
Qed.

Lemma occurrences_row_edges state0 (edges : list (string * list string))
    state symbol d :
  NoDup (edges.*1) ->
  occurrences (dot_edge state d (Some symbol)) (row_edges state0 edges)
  = if decide (state0 = state)
    then occurrences d
           (default [] ((list_to_map edges : gmap string (list string)) !! symbol))
    else 0.
Proof.
  unfold row_edges.
  induction edges as [|[symbol0 dests] edges IH]; simpl; intros Hnodup.
  - rewrite lookup_empty. by destruct (decide _).
  - apply NoDup_cons in Hnodup as [Hfresh Hnodup].
    rewrite occurrences_app, occurrences_entry_edges, (IH Hnodup).
    destruct (decide (state0 = state)) as [->|Hstate].
    + destruct (decide (symbol0 = symbol)) as [->|Hsymbol].
      * rewrite decide_True, lookup_insert_eq by done.
        apply not_elem_of_list_to_map_1 in Hfresh. rewrite Hfresh. simpl.
        rewrite occurrences_nil. lia.
      * rewrite decide_False, lookup_insert_ne by tauto. done.
    + rewrite decide_False by tauto. done.
Qed.

Lemma occurrences_table_edges (items : list (string * list (string * list string)))
    state symbol d :
  NoDup (items.*1) ->
  Forall (fun row => NoDup (row.2.*1)) items ->
  occurrences (dot_edge state d (Some symbol))
    (flat_map (fun row => row_edges row.1 row.2) items)
  = occurrences d
      (default []
         (destinations
            (list_to_map ((fun row => (row.1, list_to_map row.2)) <$> items))
            state symbol)).
Proof.
  induction items as [|[state0 edges] items IH]; simpl; intros Hnodup Hrows.
  - unfold destinations. by rewrite lookup_empty.
  - apply NoDup_cons in Hnodup as [Hfresh Hnodup].
    apply Forall_cons in Hrows as [Hrow Hrows]. simpl in Hrow.
    rewrite occurrences_app, occurrences_row_edges, (IH Hnodup Hrows) by done.
    unfold destinations.
    destruct (decide (state0 = state)) as [->|Hstate].
    + rewrite lookup_insert_eq.
      assert (Hnone : (list_to_map ((fun row => (row.1, list_to_map row.2)) <$> items)
                         : gmap string (gmap string (list string))) !! state = None).
      { apply not_elem_of_list_to_map_1. by rewrite <- list_fmap_compose. }
      rewrite Hnone. simpl. rewrite occurrences_nil. lia.
    + by rewrite lookup_insert_ne.
Qed.

(** The first loop draws one node for each occurrence of the state in
    [states], with a double circle exactly for the accept states. *)
Lemma occurrences_state_nodes (self : FiniteAutomaton) (l : list string)
    name shape label :
  occurrences (dot_node name shape label)
    (map (fun state =>
            if decide (state ∈ accept_states self)
            then dot_node state (Some "doublecircle") None
            else dot_node state None None) l)
  = if decide (label = None
               /\ shape = if decide (name ∈ accept_states self)
                          then Some "doublecircle" else None)
    then occurrences name l else 0.
Proof.
  induction l as [|state l IH]; simpl.
  - by destruct (decide _).
  - rewrite !occurrences_cons, IH. clear IH.
    assert (Heq : (if decide (state ∈ accept_states self)
                   then dot_node state (Some "doublecircle") None
                   else dot_node state None None) = dot_node name shape label
                  <-> state = name
                      /\ (label = None
                          /\ shape = if decide (name ∈ accept_states self)
                                     then Some "doublecircle" else None)).
    { split.
      - destruct (decide (state ∈ accept_states self)) as [Hacc|Hacc];
          intros [= -> <- <-]; by rewrite ?decide_True, ?decide_False by done.
      - intros (-> & -> & ->). by destruct (decide (name ∈ accept_states self)). }
    destruct (decide (_ = dot_node name shape label)) as [Hcall|Hcall];
      destruct (decide (label = None /\ _)) as [Hshape|Hshape];
      destruct (decide (state = name)) as [Hstate|Hstate];
      first [lia|exfalso; tauto].
Qed.

(** X12: what [visualize] draws, when the walk of the table yields
    [items].  It sets the two attributes first and renders last, once, to
    the file name in the format png, and every call in between draws a node
    or an edge.  Each name is drawn as a node once for each of its
    occurrences in [states], with a double circle exactly when it is an
    accept state, and the node 'start' is drawn once more, without shape
    and with an empty label.  Exactly one unlabelled edge is drawn, from
    'start' to the start state.  From a name to another, the number of
    edges labelled with a symbol is the number of occurrences of the second
    among the destinations that the table lists for the first on that
    symbol, whether the names are declared states or not.  The file name
    with '.png' appended is returned. *)
Theorem visualize_draws (items : list (string * list (string * list string)))
    (self : FiniteAutomaton) (filename : string) :
  lists_table items (transitions self) ->
  let calls := (visualize items self filename).1 in
  (visualize items self filename).2 = filename +:+ ".png"
  /\ (exists drawing,
        calls = [dot_attr_graph "LR"; dot_attr_node "circle"] ++ drawing
                ++ [dot_render filename "png" true]
        /\ Forall (fun call => match call with
                               | dot_node _ _ _ | dot_edge _ _ _ => True
                               | _ => False
                               end) drawing)
  /\ (forall state symbol d,
        occurrences (dot_edge state d (Some symbol)) calls
        = occurrences d (default [] (destinations (transitions self) state symbol)))
  /\ (forall tail head,
        occurrences (dot_edge tail head None) calls
        = if decide (tail = "start" /\ head = start_state self) then 1 else 0)
  /\ (forall name shape label,
        occurrences (dot_node name shape label) calls
        = (if decide (label = None
                      /\ shape = if decide (name ∈ accept_states self)
                                 then Some "doublecircle" else None)
           then occurrences name (states self) else 0)
          + (if decide (name = "start" /\ shape = Some "none" /\ label = Some "")
             then 1 else 0)).
Proof.
  intros (Hnodup & Hrows & Htable) calls. subst calls.
  unfold visualize. cbn [fst snd].
  set (nodes := map _ (states self)).
  set (edges := flat_map _ items).
  assert (Hnodes : forall call, call ∈ nodes ->
            exists name shape, call = dot_node name shape None).
  { intros call. unfold nodes. rewrite list_elem_of_In, in_map_iff.
    intros (state & <- & _). destruct (decide _); by eexists _, _. }
  assert (Hedges : forall call, call ∈ edges ->
            exists state symbol d, call = dot_edge state d (Some symbol))
    by apply elem_of_table_edges.
  split_and!.
  - done.
  - exists (nodes ++ [dot_node "start" (Some "none") (Some "");
                      dot_edge "start" (start_state self) None] ++ edges).
    split; [by rewrite <- !app_assoc|].
    rewrite !Forall_app. split_and!.
    + apply Forall_forall. by intros call (name & shape & ->)%Hnodes.
    + by repeat constructor.
    + apply Forall_forall. by intros call (state & symbol & d & ->)%Hedges.
  - intros state symbol d.
    rewrite !occurrences_app, !occurrences_cons, !occurrences_nil.
    rewrite !decide_False by done.
    rewrite (occurrences_not_elem_of _ nodes)
      by (by intros (name & shape & [=])%Hnodes).
    unfold edges. rewrite occurrences_table_edges, <- Htable by done. lia.
  - intros tail head.
    rewrite !occurrences_app, !occurrences_cons, !occurrences_nil.
    rewrite (occurrences_not_elem_of _ nodes)
      by (by intros (name & shape & [=])%Hnodes).
    rewrite (occurrences_not_elem_of _ edges)
      by (by intros (state & symbol & d & [=])%Hedges).
    rewrite !(decide_False (P := dot_attr_graph _ = _)) by done.
    rewrite !(decide_False (P := dot_attr_node _ = _)) by done.
    rewrite !(decide_False (P := dot_node _ _ _ = _)) by done.
    rewrite !(decide_False (P := dot_render _ _ _ = _)) by done.
    destruct (decide (tail = "start" /\ head = start_state self)) as [[-> ->]|Hne].
    + by rewrite decide_True.
    + rewrite decide_False; [done|]. intros [= <- <-]. by apply Hne.
  - intros name shape label.
    rewrite !occurrences_app, !occurrences_cons, !occurrences_nil.
    rewrite (occurrences_not_elem_of _ edges)
      by (by intros (state & symbol & d & [=])%Hedges).
    unfold nodes. rewrite occurrences_state_nodes.
    rewrite !(decide_False (P := dot_attr_graph _ = _)) by done.
    rewrite !(decide_False (P := dot_attr_node _ = _)) by done.
    rewrite !(decide_False (P := dot_edge _ _ _ = _)) by done.
    rewrite !(decide_False (P := dot_render _ _ _ = _)) by done.
    destruct (decide (name = "start" /\ shape = Some "none" /\ label = Some ""))
      as [(-> & -> & ->)|Hne].
    + rewrite (decide_True (P := dot_node _ _ _ = _)) by done. lia.
    + rewrite (decide_False (P := dot_node _ _ _ = _)); [lia|].
      intros [= <- <- <-]. by apply Hne.
Qed.

Lemma visualize_draws_witness :
  let self := store_attributes ["q0"; "q1"] ["0"; "1"] two_state_table "q0" {["q1"]} in
  let items := [("q1", [("1", ["q1"]); ("0", ["q0"])]);
                ("q0", [("0", ["q1"]); ("1", ["q0"])])] in
  let calls := (visualize items self "automaton").1 in
  lists_table items (transitions self)
  /\ (visualize items self "automaton").2 = "automaton.png"
  /\ occurrences (dot_edge "q0" "q1" (Some "0")) calls = 1
  /\ occurrences (dot_edge "q1" "q0" (Some "1")) calls = 0
  /\ occurrences (dot_edge "start" "q0" None) calls = 1
  /\ occurrences (dot_node "q1" (Some "doublecircle") None) calls = 1.
Proof.
  intros self items calls.
  assert (Hitems : lists_table items (transitions self)).
  { split_and!; [by_computation|by_computation|vm_compute; reflexivity]. }
  destruct (visualize_draws items self "automaton" Hitems)
    as (Hname & _ & Hlabelled & Hstart & Hnode).
  split_and!; [exact Hitems|exact Hname| | | |].
  - etrans; [apply Hlabelled|]. vm_compute. reflexivity.
  - etrans; [apply Hlabelled|]. vm_compute. reflexivity.
  - etrans; [apply Hstart|]. vm_compute. reflexivity.
  - etrans; [apply Hnode|]. vm_compute. reflexivity.
Defined.

(** * str_split on small inputs *)

(** ["q0,a -> q1".split("->")] *)
Example str_split_arrow : str_split "->" "q0,a -> q1" = ["q0,a "; " q1"].
Proof. reflexivity. Qed.

(** ["".split(",")], ["a,,b,".split(",")] *)
Example str_split_empty_pieces :
  str_split "," "" = [""] /\ str_split "," "a,,b," = ["a"; ""; "b"; ""].
Proof. split; reflexivity. Qed.

(** ["a-->b".split("->")], ["a---b".split("--")]: the leftmost match wins
    and matches do not overlap. *)
Example str_split_leftmost :
  str_split "->" "a-->b" = ["a-"; "b"] /\ str_split "--" "a---b" = ["a"; "-b"].
Proof. split; reflexivity. Qed.
